(** * incoder-kanban: board state engine

    A shallow embedding of [src/composables/useKanbanState.ts] (the
    [useKanbanState] and [useKanbanDrag] composables) and of the glue in
    [KanbanBoard.vue], [KanbanColumn.vue] and [KanbanCard.vue].

    Card and column records are JavaScript objects: arrays hold
    references to them and [moveCard] assigns to their [order] field.
    The embedding therefore keeps an explicit object store and models
    arrays as lists of locations; an array itself is never written to
    after it has been handed out, so arrays are plain lists.

    JavaScript numbers that the code uses as positions, counts, limits
    and numeric ids are modelled as [Z].  Identifiers keep the
    distinction between numbers and strings, and optional identifiers
    the one between [undefined] and [null], because [===], [!x] and
    [x || null] in the code depend on it.  DOM side effects (CSS classes,
    [dataTransfer], [preventDefault]) are not modelled. *)

From Stdlib Require Import ZArith String Bool Lia Permutation Sorted.
From stdpp Require Import base option list sorting pretty.

Local Open Scope Z_scope.

(** ** Identifiers and optional identifiers *)

(** [KanbanId = string | number]. *)
Inductive KanbanId : Type :=
| IdNum (n : Z)
| IdStr (s : string).

(** A JavaScript value that is [undefined], [null] or an identifier; this
    is what [swimlaneId], [draggedId], [sourceColumnId], ... hold at run
    time. *)
Inductive OptId : Type :=
| Undefined
| Null
| Id (i : KanbanId).

#[global] Instance KanbanId_eq_dec : EqDecision KanbanId.
Proof. unfold EqDecision, Decision. decide equality; [apply Z.eq_dec | apply string_dec]. Defined.

#[global] Instance OptId_eq_dec : EqDecision OptId.
Proof. unfold EqDecision, Decision. decide equality. apply KanbanId_eq_dec. Defined.

(** [a === b] on identifiers: no coercion between numbers and strings. *)
Definition id_eq (a b : KanbanId) : bool := bool_decide (a = b).

(** [a === b] on possibly missing identifiers: [undefined] and [null] are
    different values. *)
Definition strict_eq (a b : OptId) : bool := bool_decide (a = b).

(** Truthiness of an identifier: [0] and the empty string are falsy. *)
Definition id_truthy (i : KanbanId) : bool :=
  match i with
  | IdNum n => negb (n =? 0)
  | IdStr s => negb (String.eqb s EmptyString)
  end.

Definition truthy (v : OptId) : bool :=
  match v with
  | Undefined | Null => false
  | Id i => id_truthy i
  end.

(** [v || null]. *)
Definition or_null (v : OptId) : OptId := if truthy v then v else Null.

(** ** Entities (types/kanban.ts) *)

Module Card.
(** [KanbanCard].  [title] stands for the payload fields the engine
    never reads (description, tags, assignees, ...): they are copied by
    object spread like [title] is. *)
Record t : Type := mk {
  id : KanbanId;
  columnId : KanbanId;
  title : string;
  order : Z;
  swimlaneId : OptId;
  draggable : option bool
}.

Definition with_order (c : t) (o : Z) : t :=
  mk (id c) (columnId c) (title c) o (swimlaneId c) (draggable c).
End Card.

Module Column.
(** [KanbanColumn]; optional fields are [None] when absent. *)
Record t : Type := mk {
  id : KanbanId;
  title : string;
  order : Z;
  wipLimit : option Z;
  draggable : option bool;
  acceptsCards : option bool
}.

Definition with_order (c : t) (o : Z) : t :=
  mk (id c) (title c) o (wipLimit c) (draggable c) (acceptsCards c).
End Column.

Module Swimlane.
Record t : Type := mk {
  id : KanbanId;
  title : string;
  order : Z
}.
End Swimlane.

#[global] Instance Card_inhabited : Inhabited Card.t :=
  populate (Card.mk (IdNum 0) (IdNum 0) EmptyString 0 Undefined None).
#[global] Instance Column_inhabited : Inhabited Column.t :=
  populate (Column.mk (IdNum 0) EmptyString 0 None None None).

(** ** Object store *)

(** A location names one object; a store maps locations to the current
    field values of the objects allocated so far. *)
Definition loc : Type := nat.

Section Store.
Context {A : Type} `{Inhabited A}.

(** Reading the object at a location. *)
Definition deref (h : list A) (l : loc) : A := h !!! l.

(** [{ ... }]: a new object, distinct from every existing one. *)
Definition alloc (h : list A) (v : A) : list A * loc := (h ++ [v], length h).

(** The field values seen through an array of references. *)
Definition snapshot (h : list A) (arr : list loc) : list A := map (deref h) arr.
End Store.

(** ** Array primitives *)

Section Arrays.
Context {A : Type}.

(** [arr.findIndex(p)], with [None] for [-1]. *)
Fixpoint findIndex (p : A -> bool) (arr : list A) : option nat :=
  match arr with
  | [] => None
  | x :: arr' => if p x then Some 0%nat else S <$> findIndex p arr'
  end.

(** The start position [arr.splice(start, ...)] uses: a negative start
    counts from the end, and the result is clamped to [0 .. length]. *)
Definition splice_start (len : nat) (start : Z) : nat :=
  if start <? 0 then Z.to_nat (Z.max (Z.of_nat len + start) 0)
  else Z.to_nat (Z.min start (Z.of_nat len)).

(** [arr.splice(start, 0, x)]. *)
Definition splice_insert (arr : list A) (start : Z) (x : A) : list A :=
  let k := splice_start (length arr) start in
  take k arr ++ x :: drop k arr.

(** [arr.splice(i, 1)] for an index [i] inside the array. *)
Definition splice_remove (arr : list A) (i : nat) : list A := delete i arr.
End Arrays.

(** ** useKanbanState *)

(** [CardMoveEvent]; [card] is a reference to a card object. *)
Record CardMoveEvent : Type := mkCardMove {
  card : loc;
  fromColumnId : KanbanId;
  toColumnId : KanbanId;
  fromIndex : Z;
  toIndex : Z;
  fromSwimlaneId : OptId;
  toSwimlaneId : OptId
}.

(** [ColumnMoveEvent]. *)
Record ColumnMoveEvent : Type := mkColumnMove {
  column : loc;
  colFromIndex : Z;
  colToIndex : Z
}.

(** [c.columnId === col && c.swimlaneId === swim]. *)
Definition in_group (h : list Card.t) (col : KanbanId) (swim : OptId) (l : loc) : bool :=
  id_eq (Card.columnId (deref h l)) col && strict_eq (Card.swimlaneId (deref h l)) swim.

(** [card.order = v]. *)
Definition set_order (h : list Card.t) (l : loc) (v : Z) : list Card.t :=
  <[l := Card.with_order (deref h l) v]> h.

(** [arr.forEach((card, idx) => { card.order = idx; })], started at
    index [i]. *)
Fixpoint renumber_from (h : list Card.t) (arr : list loc) (i : Z) : list Card.t :=
  match arr with
  | [] => h
  | l :: arr' => renumber_from (set_order h l i) arr' (i + 1)
  end.

Definition renumber (h : list Card.t) (arr : list loc) : list Card.t :=
  renumber_from h arr 0.

(** [moveCard(event)] on the current cards array [cards]: returns the
    store after the call and the returned array. *)
Definition moveCard (h : list Card.t) (cards : list loc) (event : CardMoveEvent)
  : list Card.t * list loc :=
  let eid := Card.id (deref h (card event)) in
  match findIndex (fun c => id_eq (Card.id (deref h c)) eid) cards with
  | None => (h, cards)
  | Some cardIndex =>
      let old := deref h (cards !!! cardIndex) in
      let '(h1, updatedCard) :=
        alloc h (Card.mk (Card.id old) (toColumnId event) (Card.title old)
                         (toIndex event) (toSwimlaneId event) (Card.draggable old)) in
      let cards1 := splice_remove cards cardIndex in
      let inSource h' := in_group h' (fromColumnId event) (fromSwimlaneId event) in
      let inTarget h' := in_group h' (toColumnId event) (toSwimlaneId event) in
      let h2 := renumber h1 (List.filter (inSource h1) cards1) in
      let targetCards :=
        splice_insert (List.filter (inTarget h2) cards1) (toIndex event) updatedCard in
      let h3 := renumber h2 targetCards in
      let otherCards :=
        List.filter (fun c => negb (inTarget h3 c) && negb (inSource h3 c)) cards1 in
      (h3, otherCards ++ targetCards ++ List.filter (inSource h3) cards1)
  end.

(** [columns.map((col, idx) => ({ ...col, order: idx }))], started at
    index [i]: every element of the result is a new object. *)
Fixpoint map_reorder_from (h : list Column.t) (arr : list loc) (i : Z)
  : list Column.t * list loc :=
  match arr with
  | [] => (h, [])
  | l :: arr' =>
      let '(h1, fresh) := alloc h (Column.with_order (deref h l) i) in
      let '(h2, rest) := map_reorder_from h1 arr' (i + 1) in
      (h2, fresh :: rest)
  end.

(** [moveColumn(event)] on the current columns array [columns]. *)
Definition moveColumn (h : list Column.t) (columns : list loc) (event : ColumnMoveEvent)
  : list Column.t * list loc :=
  let eid := Column.id (deref h (column event)) in
  match findIndex (fun c => id_eq (Column.id (deref h c)) eid) columns with
  | None => (h, columns)
  | Some columnIndex =>
      let movedColumn := columns !!! columnIndex in
      let columns1 := splice_remove columns columnIndex in
      let columns2 := splice_insert columns1 (colToIndex event) movedColumn in
      map_reorder_from h columns2 0
  end.

(** [arr.sort((a, b) => a.order - b.order)]: the sort is stable, so the
    result is the one insertion sort computes. *)
Fixpoint insert_by_order (h : list Card.t) (x : loc) (arr : list loc) : list loc :=
  match arr with
  | [] => [x]
  | y :: arr' =>
      if Card.order (deref h x) <=? Card.order (deref h y) then x :: y :: arr'
      else y :: insert_by_order h x arr'
  end.

Definition sort_by_order (h : list Card.t) (arr : list loc) : list loc :=
  foldr (insert_by_order h) [] arr.

(** [getCardsForColumn(columnId, swimlaneId?)]. *)
Definition getCardsForColumn (h : list Card.t) (cards : list loc)
    (columnId : KanbanId) (swimlaneId : OptId) : list loc :=
  sort_by_order h
    (List.filter
       (fun c =>
          let columnMatch := id_eq (Card.columnId (deref h c)) columnId in
          let swimlaneMatch :=
            if negb (strict_eq swimlaneId Undefined)
            then strict_eq (Card.swimlaneId (deref h c)) swimlaneId
            else true in
          columnMatch && swimlaneMatch)
       cards).

(** [getCardCount(columnId, swimlaneId?)]. *)
Definition getCardCount (h : list Card.t) (cards : list loc)
    (columnId : KanbanId) (swimlaneId : OptId) : Z :=
  Z.of_nat (length (getCardsForColumn h cards columnId swimlaneId)).

(** [getColumnById(columnId)]; [None] is [undefined]. *)
Definition getColumnById (hc : list Column.t) (columns : list loc) (columnId : KanbanId)
  : option loc :=
  List.find (fun c => id_eq (Column.id (deref hc c)) columnId) columns.

(** [getCardById(cardId)]. *)
Definition getCardById (h : list Card.t) (cards : list loc) (cardId : KanbanId) : option loc :=
  List.find (fun c => id_eq (Card.id (deref h c)) cardId) cards.

(** [isColumnOverLimit(columnId)].  [!column.wipLimit] holds for an
    absent limit and for the limit [0]. *)
Definition isColumnOverLimit (hc : list Column.t) (columns : list loc)
    (h : list Card.t) (cards : list loc) (columnId : KanbanId) : bool :=
  match getColumnById hc columns columnId with
  | None => false
  | Some col =>
      match Column.wipLimit (deref hc col) with
      | None => false
      | Some limit =>
          if limit =? 0 then false
          else
            let cardCount := getCardCount h cards columnId Undefined in
            cardCount >? limit
      end
  end.

(** *** The remaining operations of useKanbanState *)

(** [getSwimlaneById(swimlaneId)]; the swimlanes are plain values. *)
Definition getSwimlaneById (lanes : list Swimlane.t) (swimlaneId : KanbanId)
  : option Swimlane.t :=
  List.find (fun s => id_eq (Swimlane.id s) swimlaneId) lanes.

(** [changes: Partial<KanbanCard>]: [Some v] for a key that is present
    (with a value of the field's type), [None] for an absent key. *)
Record CardChanges : Type := mkCardChanges {
  chId : option KanbanId;
  chColumnId : option KanbanId;
  chTitle : option string;
  chOrder : option Z;
  chSwimlaneId : option OptId;
  chDraggable : option (option bool)
}.

(** [{ ...card, ...changes }]. *)
Definition spread_card (c : Card.t) (ch : CardChanges) : Card.t :=
  Card.mk (default (Card.id c) (chId ch))
          (default (Card.columnId c) (chColumnId ch))
          (default (Card.title c) (chTitle ch))
          (default (Card.order c) (chOrder ch))
          (default (Card.swimlaneId c) (chSwimlaneId ch))
          (default (Card.draggable c) (chDraggable ch)).

(** [updateCard(cardId, changes)]:
    [cards.map(card => card.id === cardId ? { ...card, ...changes } : card)]. *)
Fixpoint updateCard (h : list Card.t) (cards : list loc) (cardId : KanbanId)
    (changes : CardChanges) : list Card.t * list loc :=
  match cards with
  | [] => (h, [])
  | l :: cards' =>
      let '(h1, l1) :=
        if id_eq (Card.id (deref h l)) cardId
        then alloc h (spread_card (deref h l) changes)
        else (h, l) in
      let '(h2, rest) := updateCard h1 cards' cardId changes in
      (h2, l1 :: rest)
  end.

(** [changes: Partial<KanbanColumn>]. *)
Record ColumnChanges : Type := mkColumnChanges {
  chColId : option KanbanId;
  chColTitle : option string;
  chColOrder : option Z;
  chWipLimit : option (option Z);
  chColDraggable : option (option bool);
  chAcceptsCards : option (option bool)
}.

(** [{ ...column, ...changes }]. *)
Definition spread_column (c : Column.t) (ch : ColumnChanges) : Column.t :=
  Column.mk (default (Column.id c) (chColId ch))
            (default (Column.title c) (chColTitle ch))
            (default (Column.order c) (chColOrder ch))
            (default (Column.wipLimit c) (chWipLimit ch))
            (default (Column.draggable c) (chColDraggable ch))
            (default (Column.acceptsCards c) (chAcceptsCards ch)).

(** [updateColumn(columnId, changes)]. *)
Fixpoint updateColumn (h : list Column.t) (columns : list loc) (columnId : KanbanId)
    (changes : ColumnChanges) : list Column.t * list loc :=
  match columns with
  | [] => (h, [])
  | l :: columns' =>
      let '(h1, l1) :=
        if id_eq (Column.id (deref h l)) columnId
        then alloc h (spread_column (deref h l) changes)
        else (h, l) in
      let '(h2, rest) := updateColumn h1 columns' columnId changes in
      (h2, l1 :: rest)
  end.

(** [[...arr].sort((a, b) => key(a) - key(b))] for any element type: the
    stable sort, computed by insertion. *)
Section SortByKey.
Context {A : Type} (key : A -> Z).

Fixpoint insert_by_key (x : A) (arr : list A) : list A :=
  match arr with
  | [] => [x]
  | y :: arr' =>
      if key x <=? key y then x :: y :: arr' else y :: insert_by_key x arr'
  end.

Definition sort_by_key (arr : list A) : list A := foldr insert_by_key [] arr.
End SortByKey.


(** [sortedSwimlanes]. *)
Definition sortedSwimlanes (lanes : list Swimlane.t) : list Swimlane.t :=
  sort_by_key Swimlane.order lanes.

(** An element of [effectiveSwimlanes]: a swimlane of the host, or one
    generated from a [swimlaneId] found on a card, which at run time may
    also be [null]. *)
Record EffectiveSwimlane : Type := mkEffective {
  effId : OptId;
  effTitle : string;
  effOrder : Z
}.

(** [`${id}`] for an id.  An integer prints in decimal; this is what
    JavaScript prints for the integers a number holds exactly (up to
    [2^53 - 1] in absolute value), not for larger ones, which it rounds
    and, from [10^21] on, prints with an exponent. *)
Definition template_id (v : OptId) : string :=
  match v with
  | Undefined => "undefined"
  | Null => "null"
  | Id (IdStr s) => s
  | Id (IdNum n) => pretty n
  end.

(** [Array.from(new Set(ids))]: the distinct values, each at the place of
    its first occurrence; [seen] holds the values already in the set. *)
Fixpoint distinct_from (seen : list OptId) (ids : list OptId) : list OptId :=
  match ids with
  | [] => []
  | x :: ids' =>
      if existsb (strict_eq x) seen then distinct_from seen ids'
      else x :: distinct_from (x :: seen) ids'
  end.

(** [effectiveSwimlanes]. *)
Definition effectiveSwimlanes (h : list Card.t) (cards : list loc)
    (lanes : list Swimlane.t) : list EffectiveSwimlane :=
  if (0 <? length lanes)%nat
  then map (fun s => mkEffective (Id (Swimlane.id s)) (Swimlane.title s) (Swimlane.order s))
           (sortedSwimlanes lanes)
  else
    let swimlaneIds :=
      distinct_from []
        (List.filter (fun v => negb (strict_eq v Undefined))
                     (map (fun c => Card.swimlaneId (deref h c)) cards)) in
    imap (fun index v =>
            mkEffective v (String.append "Swimlane " (template_id v)) (Z.of_nat index))
         swimlaneIds.

(** ** useKanbanDrag *)

Inductive DragType : Type := DragCard | DragColumn.

#[global] Instance DragType_eq_dec : EqDecision DragType.
Proof. unfold EqDecision, Decision. decide equality. Defined.

(** [DragState]; [None] in [dragType] is [null]. *)
Record DragState : Type := mkDragState {
  isDragging : bool;
  dragType : option DragType;
  draggedId : OptId;
  sourceColumnId : OptId;
  sourceSwimlaneId : OptId;
  dropColumnId : OptId;
  dropSwimlaneId : OptId
}.

Record DragStartEvent : Type := mkDragStart {
  startType : DragType;
  startId : KanbanId;
  startSourceColumnId : OptId
}.

Record DragEndEvent : Type := mkDragEnd {
  endType : DragType;
  endId : KanbanId;
  success : bool
}.

(** The calls a handler makes to the callbacks of [UseKanbanDragOptions],
    in the order it makes them. *)
Inductive Callback : Type :=
| OnDragStart (e : DragStartEvent)
| OnDragEnd (e : DragEndEvent)
| OnCardMoved (e : CardMoveEvent).

(** The state [resetDragState] installs; also the initial state. *)
Definition idleDragState : DragState :=
  mkDragState false None Null Null Null Null Null.

Definition resetDragState (ds : DragState) : DragState := idleDragState.

(** [x?.value !== false] for an optional boolean. *)
Definition not_false (o : option bool) : bool :=
  match o with
  | Some false => false
  | _ => true
  end.

(** [startCardDrag(card, event)]; [enabled] is [isDragEnabled.value]. *)
Definition startCardDrag (enabled : bool) (card : Card.t) (ds : DragState)
  : DragState * list Callback :=
  if negb enabled || negb (not_false (Card.draggable card)) then (ds, [])
  else
    (mkDragState true (Some DragCard) (Id (Card.id card)) (Id (Card.columnId card))
                 (or_null (Card.swimlaneId card)) Null Null,
     [OnDragStart (mkDragStart DragCard (Card.id card) (Id (Card.columnId card)))]).

(** [startColumnDrag(column, event)]; [enabled] is
    [isColumnDragEnabled.value]. *)
Definition startColumnDrag (enabled : bool) (column : Column.t) (ds : DragState)
  : DragState * list Callback :=
  if negb enabled || negb (not_false (Column.draggable column)) then (ds, [])
  else
    (mkDragState true (Some DragColumn) (Id (Column.id column)) Null Null Null Null,
     [OnDragStart (mkDragStart DragColumn (Column.id column) Undefined)]).

(** [handleDragOver(event, columnId, swimlaneId?)]. *)
Definition handleDragOver (enabled : bool) (ds : DragState)
    (columnId : KanbanId) (swimlaneId : OptId) : DragState :=
  if negb enabled || negb (isDragging ds) then ds
  else
    mkDragState (isDragging ds) (dragType ds) (draggedId ds) (sourceColumnId ds)
                (sourceSwimlaneId ds) (Id columnId) (or_null swimlaneId).

(** [handleDrop(event, columnId, swimlaneId, getCard, getCardsInColumn)];
    [h] gives the fields of the card objects at the time of the call. *)
Definition handleDrop (enabled : bool) (h : list Card.t) (ds : DragState)
    (columnId : KanbanId) (swimlaneId : OptId)
    (getCard : KanbanId -> option loc)
    (getCardsInColumn : KanbanId -> OptId -> list loc)
  : DragState * list Callback :=
  if negb enabled || negb (bool_decide (dragType ds = Some DragCard))
  then (resetDragState ds, [])
  else
    match draggedId ds with
    | Id did =>
        if negb (id_truthy did) then (resetDragState ds, [])
        else
          match getCard did with
          | None => (resetDragState ds, [])
          | Some card =>
              match sourceColumnId ds with
              | Id fromCol =>
                  if negb (id_truthy fromCol) then (resetDragState ds, [])
                  else
                    let fromSwimlaneId := sourceSwimlaneId ds in
                    let cardsInColumn := getCardsInColumn columnId swimlaneId in
                    let sameGroup :=
                      id_eq columnId fromCol && strict_eq swimlaneId fromSwimlaneId in
                    let toIndex :=
                      if sameGroup then
                        match findIndex (fun c => id_eq (Card.id (deref h c)) did)
                                        cardsInColumn with
                        | Some fromIndex => Z.of_nat fromIndex
                        | None => Z.of_nat (length cardsInColumn)
                        end
                      else Z.of_nat (length cardsInColumn) in
                    let actuallyMoved :=
                      negb (id_eq columnId fromCol)
                      || negb (strict_eq swimlaneId fromSwimlaneId)
                      || negb (toIndex =? Card.order (deref h card)) in
                    let moved :=
                      if actuallyMoved then
                        [OnCardMoved
                           (mkCardMove card fromCol columnId (Card.order (deref h card))
                                       toIndex fromSwimlaneId swimlaneId)]
                      else [] in
                    (resetDragState ds,
                     moved ++ [OnDragEnd (mkDragEnd DragCard did true)])
              | _ => (resetDragState ds, [])
              end
          end
    | _ => (resetDragState ds, [])
    end.

(** [handleDragEnd(event)]. *)
Definition handleDragEnd (ds : DragState) : DragState * list Callback :=
  match draggedId ds, dragType ds with
  | Id did, Some ty =>
      if id_truthy did
      then (resetDragState ds, [OnDragEnd (mkDragEnd ty did false)])
      else (resetDragState ds, [])
  | _, _ => (resetDragState ds, [])
  end.

(** [isCardDragging(cardId)]. *)
Definition isCardDragging (ds : DragState) (cardId : KanbanId) : bool :=
  bool_decide (dragType ds = Some DragCard) && strict_eq (draggedId ds) (Id cardId).

(** [isColumnDragging(columnId)]. *)
Definition isColumnDragging (ds : DragState) (columnId : KanbanId) : bool :=
  bool_decide (dragType ds = Some DragColumn) && strict_eq (draggedId ds) (Id columnId).

(** ** KanbanBoard.vue, KanbanColumn.vue, KanbanCard.vue *)

(** The options of [KanbanBoardOptions] the engine reads. *)
Record BoardOptions : Type := mkOptions {
  enableDragDrop : option bool;
  enableColumnDrag : option bool;
  enableSwimlanes : option bool
}.

(** The props of one board together with the drag state of its
    [useKanbanDrag] instance.  The host binds the collections with
    [v-model], so the array of an [update:cards] event becomes the
    [cards] prop. *)
Record Board : Type := mkBoard {
  cardStore : list Card.t;
  cards : list loc;
  columnStore : list Column.t;
  columns : list loc;
  swimlanes : list Swimlane.t;
  options : BoardOptions;
  dragState : DragState
}.

(** The events the board emits to its host. *)
Inductive Emit : Type :=
| EmitUpdateCards (updated : list loc)
| EmitCardMoved (e : CardMoveEvent)
| EmitBoardChange (cols : list loc) (cds : list loc) (lanes : option (list Swimlane.t))
| EmitDragStart (e : DragStartEvent)
| EmitDragEnd (e : DragEndEvent).

(** [enableDragDrop: computed(() => optionsRef.value.enableDragDrop !== false)]
    as [useKanbanDrag] reads it. *)
Definition isDragEnabled (b : Board) : bool := not_false (enableDragDrop (options b)).

(** [boardOptions.enableDragDrop]: the default [true] unless overridden. *)
Definition boardEnableDragDrop (b : Board) : bool :=
  default true (enableDragDrop (options b)).

(** [effectiveSwimlanes.value.length > 0]: explicit swimlanes, or else one
    generated swimlane per distinct [swimlaneId] other than [undefined]. *)
Definition effectiveSwimlanesNonEmpty (b : Board) : bool :=
  negb (bool_decide (swimlanes b = []))
  || existsb (fun c => negb (strict_eq (Card.swimlaneId (deref (cardStore b) c)) Undefined))
             (cards b).

(** [swimlanesEnabled]. *)
Definition swimlanesEnabled (b : Board) : bool :=
  default false (enableSwimlanes (options b)) && effectiveSwimlanesNonEmpty b.

(** The [onCardMoved] callback the board hands to [useKanbanDrag]:
    [moveCard], then [update:cards], [card-moved] and [board-change]. *)
Definition onCardMoved (b : Board) (e : CardMoveEvent) : Board * list Emit :=
  let '(h, updatedCards) := moveCard (cardStore b) (cards b) e in
  (mkBoard h updatedCards (columnStore b) (columns b) (swimlanes b) (options b) (dragState b),
   [EmitUpdateCards updatedCards;
    EmitCardMoved e;
    EmitBoardChange (columns b) updatedCards
                    (if swimlanesEnabled b then Some (swimlanes b) else None)]).

Definition run_callback (b : Board) (cb : Callback) : Board * list Emit :=
  match cb with
  | OnDragStart e => (b, [EmitDragStart e])
  | OnDragEnd e => (b, [EmitDragEnd e])
  | OnCardMoved e => onCardMoved b e
  end.

Fixpoint run_callbacks (b : Board) (cbs : list Callback) : Board * list Emit :=
  match cbs with
  | [] => (b, [])
  | cb :: cbs' =>
      let '(b1, out1) := run_callback b cb in
      let '(b2, out2) := run_callbacks b1 cbs' in
      (b2, out1 ++ out2)
  end.

Definition with_dragState (b : Board) (ds : DragState) : Board :=
  mkBoard (cardStore b) (cards b) (columnStore b) (columns b) (swimlanes b) (options b) ds.

(** What a handler of [useKanbanDrag] does to the board: the new drag
    state is installed and its callbacks run. *)
Definition apply_drag (b : Board) (r : DragState * list Callback) : Board * list Emit :=
  run_callbacks (with_dragState b (fst r)) (snd r).

(** [canAcceptCards] of a column component. *)
Definition canAcceptCards (col : Column.t) : bool := not_false (Column.acceptsCards col).

(** [canDrag] of a card component. *)
Definition canDrag (b : Board) (c : Card.t) : bool :=
  boardEnableDragDrop b && not_false (Card.draggable c).

(** The DOM events the rendered board reacts to. *)
Inductive BoardEvent : Type :=
| CardDragStart (c : loc)
| CardDragEnd
| ColumnDragOver (col : loc) (swimlaneId : OptId)
| ColumnDrop (col : loc) (swimlaneId : OptId).

(** [handleColumnDrop(columnId, swimlaneId, event)] of the board. *)
Definition handleColumnDrop (b : Board) (columnId : KanbanId) (swimlaneId : OptId)
  : Board * list Emit :=
  apply_drag b
    (handleDrop (isDragEnabled b) (cardStore b) (dragState b) columnId swimlaneId
                (getCardById (cardStore b) (cards b))
                (getCardsForColumn (cardStore b) (cards b))).

(** One DOM event, through the handlers of the card and column
    components down to the composables.  [CardDragEnd] names no card and
    always reaches [handleDragEnd]; the mounted board hears the [dragend]
    only of a card that is still rendered, so the runs of the program are
    among the runs of this model. *)
Definition step (b : Board) (ev : BoardEvent) : Board * list Emit :=
  match ev with
  | CardDragStart c =>
      let cv := deref (cardStore b) c in
      if canDrag b cv
      then apply_drag b (startCardDrag (isDragEnabled b) cv (dragState b))
      else (b, [])
  | CardDragEnd => apply_drag b (handleDragEnd (dragState b))
  | ColumnDragOver col swimlaneId =>
      let cv := deref (columnStore b) col in
      if canAcceptCards cv
      then (with_dragState b
              (handleDragOver (isDragEnabled b) (dragState b) (Column.id cv) swimlaneId), [])
      else (b, [])
  | ColumnDrop col swimlaneId =>
      let cv := deref (columnStore b) col in
      if canAcceptCards cv
      then handleColumnDrop b (Column.id cv) swimlaneId
      else (b, [])
  end.

Fixpoint run (b : Board) (evs : list BoardEvent) : Board * list Emit :=
  match evs with
  | [] => (b, [])
  | ev :: evs' =>
      let '(b1, out1) := step b ev in
      let '(b2, out2) := run b1 evs' in
      (b2, out1 ++ out2)
  end.

(** *** The computed values of a column component *)

(** [sortedCards] of KanbanColumn.vue, for the [cards] prop. *)
Definition columnSortedCards (h : list Card.t) (cards : list loc) : list loc :=
  sort_by_order h cards.

(** [cardCount]: [props.cards.length]. *)
Definition columnCardCount (cards : list loc) : Z := Z.of_nat (length cards).

(** [isOverLimit] of KanbanColumn.vue, for the [column] and [cards]
    props. *)
Definition columnIsOverLimit (column : Column.t) (cards : list loc) : bool :=
  match Column.wipLimit column with
  | None => false
  | Some limit => if limit =? 0 then false else columnCardCount cards >? limit
  end.

(** ** Properties of a board *)

(** The [order] values of the cards of group [(col, swim)], in array
    order. *)
Definition group_orders (h : list Card.t) (cards : list loc)
    (col : KanbanId) (swim : OptId) : list Z :=
  map (fun c => Card.order (deref h c)) (List.filter (in_group h col swim) cards).

(** Density: in every group the [order] values are [0 .. n-1], each
    exactly once. *)
Definition dense (h : list Card.t) (cards : list loc) : Prop :=
  forall col swim,
    group_orders h cards col swim
    ≡ₚ seqZ 0 (Z.of_nat (length (group_orders h cards col swim))).

(** The card ids of a collection, with multiplicity. *)
Definition card_ids (h : list Card.t) (cards : list loc) : list KanbanId :=
  map (fun c => Card.id (deref h c)) cards.

Definition column_ids (h : list Column.t) (columns : list loc) : list KanbanId :=
  map (fun c => Column.id (deref h c)) columns.

Definition column_orders (h : list Column.t) (columns : list loc) : list Z :=
  map (fun c => Column.order (deref h c)) columns.

(** Every reference of an array names an allocated object. *)
Definition well_formed {A : Type} (h : list A) (arr : list loc) : Prop :=
  Forall (fun l => (l < length h)%nat) arr.

(** The collections of a board, as opposed to its drag state. *)
Definition collections (b : Board)
  : list Card.t * list loc * list Column.t * list loc * list Swimlane.t :=
  (cardStore b, cards b, columnStore b, columns b, swimlanes b).

(** Assigning [order] changes no other field of any object. *)
Definition same_groups (h h' : list Card.t) : Prop :=
  forall l, Card.id (deref h' l) = Card.id (deref h l)
            /\ Card.columnId (deref h' l) = Card.columnId (deref h l)
            /\ Card.swimlaneId (deref h' l) = Card.swimlaneId (deref h l).

(** Only the [order] field of an object may differ between two stores. *)
Definition same_but_order (h h' : list Card.t) : Prop :=
  forall l, exists o, deref h' l = Card.with_order (deref h l) o.

(** The events of a gesture between its start and its end. *)
Definition is_hover (ev : BoardEvent) : Prop :=
  match ev with
  | ColumnDragOver _ _ => True
  | _ => False
  end.

(** The effect of one [moveCard] whose request names two different
    groups and, as its source, the group of the card it moves; and of a
    sequence of such moves, each applied to the result of the one
    before. *)
Definition cross_group_request (h : list Card.t) (cards : list loc) (e : CardMoveEvent) : Prop :=
  (fromColumnId e, fromSwimlaneId e) <> (toColumnId e, toSwimlaneId e)
  /\ forall c, getCardById h cards (Card.id (deref h (card e))) = Some c ->
               in_group h (fromColumnId e) (fromSwimlaneId e) c = true.

Inductive cross_group_moves
  : list Card.t -> list loc -> list Card.t -> list loc -> Prop :=
| moves_done (h : list Card.t) (cards : list loc) :
    cross_group_moves h cards h cards
| moves_step (h : list Card.t) (cards : list loc) (e : CardMoveEvent)
             (h1 : list Card.t) (cards1 : list loc)
             (h2 : list Card.t) (cards2 : list loc) :
    cross_group_request h cards e ->
    moveCard h cards e = (h1, cards1) ->
    cross_group_moves h1 cards1 h2 cards2 ->
    cross_group_moves h cards h2 cards2.

(** A sequence of [moveColumn] calls, each applied to the result of the
    one before. *)
Fixpoint moveColumns (h : list Column.t) (columns : list loc) (es : list ColumnMoveEvent)
  : list Column.t * list loc :=
  match es with
  | [] => (h, columns)
  | e :: es' => let '(h1, columns1) := moveColumn h columns e in moveColumns h1 columns1 es'
  end.

(** The [drag-start] and [drag-end] events among the emitted ones, and
    whether a drag state records a subject. *)
Definition is_drag_start (e : Emit) : bool :=
  match e with
  | EmitDragStart _ => true
  | _ => false
  end.

Definition is_drag_end (e : Emit) : bool :=
  match e with
  | EmitDragEnd _ => true
  | _ => false
  end.

Definition has_subject (ds : DragState) : bool :=
  match draggedId ds, dragType ds with
  | Id _, Some _ => true
  | _, _ => false
  end.

(** ** Concrete boards *)

Module Scenario.
Definition A : KanbanId := IdStr "A".
Definition B : KanbanId := IdStr "B".

Definition colA : Column.t := Column.mk A "A" 0 None None None.
Definition colB : Column.t := Column.mk B "B" 1 None None None.

Definition c1 : Card.t := Card.mk (IdStr "c1") A "c1" 0 Undefined None.
Definition c2 : Card.t := Card.mk (IdStr "c2") A "c2" 1 Undefined None.
Definition c3 : Card.t := Card.mk (IdStr "c3") B "c3" 0 Undefined None.

(** Columns [A(0)], [B(1)]; cards [c1(A,0)], [c2(A,1)], [c3(B,0)];
    default options; no gesture in progress. *)
Definition board : Board :=
  mkBoard [c1; c2; c3] [0; 1; 2]%nat [colA; colB] [0; 1]%nat []
          (mkOptions None None None) idleDragState.

(** Move [c1] from [A/0] to [B/0]; both swimlane fields are absent. *)
Definition move_c1_to_B : CardMoveEvent :=
  mkCardMove 0%nat A B 0 0 Undefined Undefined.

(** A board with the single column [A] holding [c1(A,0)], [c2(A,1)]. *)
Definition boardA : Board :=
  mkBoard [c1; c2] [0; 1]%nat [colA] [0%nat] [] (mkOptions None None None) idleDragState.

(** Move [c2] inside group [A] from index [1] to index [0]. *)
Definition move_c2_up : CardMoveEvent :=
  mkCardMove 1%nat A A 1 0 Undefined Undefined.

(** Move [c2] to the group and index it already has. *)
Definition move_c2_nowhere : CardMoveEvent :=
  mkCardMove 1%nat A A 1 1 Undefined Undefined.

(** [boardA] once the drag of [c2] has started and the host has then
    removed [c2] from the cards: the dragged id is stale. *)
Definition staleBoard : Board :=
  mkBoard [c1; c2] [0%nat] [colA] [0%nat] [] (mkOptions None None None)
          (fst (startCardDrag true c2 idleDragState)).

(** A card whose id is the number [0] in column [A], and a column [B]
    that refuses cards. *)
Definition card0 : Card.t := Card.mk (IdNum 0) A "zero" 0 Undefined None.
Definition lockedB : Column.t := Column.mk B "B" 1 None None (Some false).
Definition lockedBoard : Board :=
  mkBoard [card0] [0%nat] [colA; lockedB] [0; 1]%nat []
          (mkOptions None None None) idleDragState.

(** Column [A] with the limit [0], holding one card. *)
Definition zeroLimitA : Column.t := Column.mk A "A" 0 (Some 0) None None.
Definition zeroLimitBoard : Board :=
  mkBoard [c1] [0%nat] [zeroLimitA] [0%nat] [] (mkOptions None None None) idleDragState.

(** The same two columns with the card [c1], whose id is truthy. *)
Definition lockedBoard1 : Board :=
  mkBoard [c1] [0%nat] [colA; lockedB] [0; 1]%nat []
          (mkOptions None None None) idleDragState.

(** Swimlane [s1]: the cards [d1(A,s1,0)], [d2(A,s1,1)], swimlanes
    enabled, and the drag of [d1] started. *)
Definition s1 : KanbanId := IdStr "s1".
Definition d1 : Card.t := Card.mk (IdStr "d1") A "d1" 0 (Id s1) None.
Definition d2 : Card.t := Card.mk (IdStr "d2") A "d2" 1 (Id s1) None.
Definition laneBoard : Board :=
  mkBoard [d1; d2] [0; 1]%nat [colA] [0%nat] [Swimlane.mk s1 "s1" 0]
          (mkOptions None None (Some true))
          (fst (startCardDrag true d1 idleDragState)).

(** The gesture that carries the card at location [0] to the column at
    location [1] of a board rendered without swimlanes: [dragstart],
    [dragover] and [drop] on that column, [dragend]. *)
Definition drag_first_card_to_B : list BoardEvent :=
  [CardDragStart 0%nat; ColumnDragOver 1%nat Undefined; ColumnDrop 1%nat Undefined;
   CardDragEnd].

(** Default options, so swimlanes are off: [c1(A,0)] and, in column
    [B], the cards [b1(B,s1,0)], [b2(B,s1,1)], which carry a swimlane
    id. *)
Definition b1 : Card.t := Card.mk (IdStr "b1") B "b1" 0 (Id s1) None.
Definition b2 : Card.t := Card.mk (IdStr "b2") B "b2" 1 (Id s1) None.
Definition mixedBoard : Board :=
  mkBoard [c1; b1; b2] [0; 1; 2]%nat [colA; colB] [0; 1]%nat []
          (mkOptions None None None) idleDragState.
End Scenario.

(** ** Theorems *)

(** Density of a concrete board whose cards all sit in listed groups is
    checked group by group. *)
Ltac dense_by_cases :=
  intros col swim; unfold group_orders, in_group, id_eq, strict_eq; cbn;
  repeat (case_bool_decide; subst; cbn); try reflexivity; try discriminate;
  try congruence.

(** Two concrete lists that are not permutations of each other. *)
Ltac not_perm H :=
  apply (bool_decide_pack _) in H; vm_compute in H; contradiction.

(** *** The object store under [moveCard] *)

Lemma length_set_order (h : list Card.t) (l : loc) (v : Z) :
  length (set_order h l v) = length h.
Proof. unfold set_order. apply length_insert. Qed.

Lemma deref_set_order_ne (h : list Card.t) (l l' : loc) (v : Z) :
  l <> l' -> deref (set_order h l v) l' = deref h l'.
Proof. intros Hne. unfold deref, set_order. apply list_lookup_total_insert_ne. exact Hne. Qed.

Lemma deref_set_order_eq (h : list Card.t) (l : loc) (v : Z) :
  (l < length h)%nat -> deref (set_order h l v) l = Card.with_order (deref h l) v.
Proof. intros Hl. unfold deref, set_order. apply list_lookup_total_insert_eq. exact Hl. Qed.

Lemma same_groups_set_order (h : list Card.t) (l : loc) (v : Z) :
  same_groups h (set_order h l v).
Proof.
  intros l'. destruct (decide (l = l')) as [<-|Hne].
  - destruct (decide (l < length h)%nat) as [Hl|Hl].
    + rewrite deref_set_order_eq by exact Hl. auto.
    + unfold set_order. rewrite list_insert_ge by lia. auto.
  - rewrite deref_set_order_ne by exact Hne. auto.
Qed.

Lemma same_groups_trans (h1 h2 h3 : list Card.t) :
  same_groups h1 h2 -> same_groups h2 h3 -> same_groups h1 h3.
Proof.
  intros H12 H23 l. destruct (H12 l) as (E1 & E2 & E3). destruct (H23 l) as (F1 & F2 & F3).
  rewrite F1, F2, F3. auto.
Qed.

Lemma renumber_from_length (arr : list loc) (h : list Card.t) (i : Z) :
  length (renumber_from h arr i) = length h.
Proof.
  revert h i. induction arr as [|l arr IH]; intros h i; cbn; [reflexivity|].
  rewrite IH. apply length_set_order.
Qed.

Lemma renumber_from_same_groups (arr : list loc) (h : list Card.t) (i : Z) :
  same_groups h (renumber_from h arr i).
Proof.
  revert h i. induction arr as [|l arr IH]; intros h i; cbn.
  - intros l. auto.
  - eapply same_groups_trans; [apply same_groups_set_order | apply IH].
Qed.

Lemma in_group_same_groups (h h' : list Card.t) (col : KanbanId) (swim : OptId) (l : loc) :
  same_groups h h' -> in_group h' col swim l = in_group h col swim l.
Proof. intros Hs. unfold in_group. destruct (Hs l) as (_ & -> & ->). reflexivity. Qed.

(** Objects outside the renumbered array keep all their fields. *)
Lemma renumber_from_other (arr : list loc) (h : list Card.t) (i : Z) (l : loc) :
  ~ In l arr -> deref (renumber_from h arr i) l = deref h l.
Proof.
  revert h i. induction arr as [|x arr IH]; intros h i Hnin; cbn; [reflexivity|].
  rewrite IH by (intros Hin; apply Hnin; right; exact Hin).
  apply deref_set_order_ne. intros ->. apply Hnin. left. reflexivity.
Qed.

(** On an array without repeated references, [forEach] leaves every
    object with its index as [order]. *)
Lemma renumber_from_orders (arr : list loc) (h : list Card.t) (i : Z) :
  NoDup arr -> well_formed h arr ->
  map (fun l => Card.order (deref (renumber_from h arr i) l)) arr
  = seqZ i (Z.of_nat (length arr)).
Proof.
  revert h i. induction arr as [|x arr IH]; intros h i Hnd Hwf; [reflexivity|].
  apply NoDup_cons in Hnd as [Hx Hnd]. apply Forall_cons in Hwf as [Hxl Hwf].
  cbn [map renumber_from length]. rewrite seqZ_cons by lia. f_equal.
  - rewrite renumber_from_other by (rewrite <- list_elem_of_In; exact Hx).
    rewrite deref_set_order_eq by exact Hxl. reflexivity.
  - rewrite IH; [f_equal; lia | exact Hnd |].
    unfold well_formed. rewrite length_set_order. exact Hwf.
Qed.

Lemma deref_alloc_old {A : Type} `{Inhabited A} (h : list A) (v : A) (l : loc) :
  (l < length h)%nat -> deref (h ++ [v]) l = deref h l.
Proof. intros Hl. unfold deref. apply lookup_total_app_l. exact Hl. Qed.

Lemma deref_alloc_new {A : Type} `{Inhabited A} (h : list A) (v : A) :
  deref (h ++ [v]) (length h) = v.
Proof. unfold deref. apply list_lookup_total_middle. reflexivity. Qed.

(** *** Array lemmas *)

Lemma findIndex_Some {A : Type} (p : A -> bool) (arr : list A) (i : nat) :
  findIndex p arr = Some i -> exists x, arr !! i = Some x /\ p x = true.
Proof.
  revert i. induction arr as [|y arr IH]; intros i; cbn; [discriminate|].
  destruct (p y) eqn:Hp.
  - intros [= <-]. exists y. auto.
  - destruct (findIndex p arr) as [j|]; cbn; [|discriminate].
    intros [= <-]. destruct (IH j eq_refl) as (x & Hx & Hpx). exists x. auto.
Qed.

Lemma splice_insert_perm {A : Type} (arr : list A) (start : Z) (x : A) :
  splice_insert arr start x ≡ₚ x :: arr.
Proof.
  unfold splice_insert. rewrite <- Permutation_middle. rewrite take_drop. reflexivity.
Qed.

(** Three filters that split an array: two disjoint tests and the
    rest. *)
Lemma filter_three_way {A : Type} (p q : A -> bool) (arr : list A) :
  (forall x, In x arr -> p x = true -> q x = true -> False) ->
  List.filter (fun x => negb (p x) && negb (q x)) arr
    ++ List.filter p arr ++ List.filter q arr
  ≡ₚ arr.
Proof.
  induction arr as [|x arr IH]; intros Hdis; [reflexivity|].
  assert (IH' := IH (fun y Hy => Hdis y (or_intror Hy))). clear IH.
  cbn [List.filter]. destruct (p x) eqn:Hp, (q x) eqn:Hq; cbn [negb andb].
  - exfalso. apply (Hdis x); auto. left. reflexivity.
  - cbn [app]. rewrite <- Permutation_middle. rewrite IH'. reflexivity.
  - rewrite app_assoc. rewrite <- Permutation_middle. rewrite <- app_assoc.
    rewrite IH'. reflexivity.
  - cbn [app]. rewrite IH'. reflexivity.
Qed.

Lemma filter_none {A : Type} (f : A -> bool) (arr : list A) :
  (forall x, In x arr -> f x = false) -> List.filter f arr = [].
Proof.
  induction arr as [|x arr IH]; intros Hf; cbn; [reflexivity|].
  rewrite (Hf x) by (left; reflexivity). apply IH. intros y Hy. apply Hf. right. exact Hy.
Qed.

Lemma filter_all {A : Type} (f : A -> bool) (arr : list A) :
  (forall x, In x arr -> f x = true) -> List.filter f arr = arr.
Proof.
  induction arr as [|x arr IH]; intros Hf; cbn; [reflexivity|].
  rewrite (Hf x) by (left; reflexivity). f_equal. apply IH. intros y Hy. apply Hf. right. exact Hy.
Qed.

Lemma filter_filter_implied {A : Type} (f p : A -> bool) (arr : list A) :
  (forall x, In x arr -> f x = true -> p x = true) ->
  List.filter f (List.filter p arr) = List.filter f arr.
Proof.
  induction arr as [|x arr IH]; intros Himp; cbn; [reflexivity|].
  assert (IH' := IH (fun y Hy => Himp y (or_intror Hy))).
  destruct (p x) eqn:Hp; cbn.
  - rewrite IH'. reflexivity.
  - destruct (f x) eqn:Hf; [|exact IH'].
    rewrite (Himp x (or_introl eq_refl) Hf) in Hp. discriminate Hp.
Qed.

Lemma filter_delete_outside {A : Type} `{Inhabited A} (f : A -> bool) (arr : list A) (i : nat)
    (x : A) :
  arr !! i = Some x -> f x = false ->
  List.filter f (delete i arr) = List.filter f arr.
Proof.
  intros Hx Hf. rewrite delete_take_drop.
  rewrite <- (take_drop_middle arr i x Hx) at 3.
  rewrite !List.filter_app. cbn [List.filter]. rewrite Hf. reflexivity.
Qed.

Lemma dense_of_seqZ (l : list Z) :
  l = seqZ 0 (Z.of_nat (length l)) -> l ≡ₚ seqZ 0 (Z.of_nat (length l)).
Proof. intros <-. reflexivity. Qed.

Lemma map_renumber_orders (h : list Card.t) (arr : list loc) :
  NoDup arr -> well_formed h arr ->
  map (fun l => Card.order (deref (renumber h arr) l)) arr = seqZ 0 (Z.of_nat (length arr)).
Proof. apply renumber_from_orders. Qed.

Lemma same_but_order_set_order (h : list Card.t) (l : loc) (v : Z) :
  same_but_order h (set_order h l v).
Proof.
  intros l'. destruct (decide (l = l')) as [<-|Hne].
  - destruct (decide (l < length h)%nat) as [Hl|Hl].
    + exists v. apply deref_set_order_eq. exact Hl.
    + exists (Card.order (deref h l)). unfold set_order. rewrite list_insert_ge by lia.
      destruct (deref h l); reflexivity.
  - exists (Card.order (deref h l')). rewrite deref_set_order_ne by exact Hne.
    destruct (deref h l'); reflexivity.
Qed.

Lemma same_but_order_trans (h1 h2 h3 : list Card.t) :
  same_but_order h1 h2 -> same_but_order h2 h3 -> same_but_order h1 h3.
Proof.
  intros H12 H23 l. destruct (H12 l) as [o1 E1]. destruct (H23 l) as [o2 E2].
  exists o2. rewrite E2, E1. reflexivity.
Qed.

Lemma renumber_from_same_but_order (arr : list loc) (h : list Card.t) (i : Z) :
  same_but_order h (renumber_from h arr i).
Proof.
  revert h i. induction arr as [|l arr IH]; intros h i; cbn.
  - intros l. exists (Card.order (deref h l)). destruct (deref h l); reflexivity.
  - eapply same_but_order_trans; [apply same_but_order_set_order | apply IH].
Qed.

Lemma splice_start_le (len : nat) (start : Z) : (splice_start len start <= len)%nat.
Proof. unfold splice_start. destruct (start <? 0) eqn:Hs; lia. Qed.

(** The index [splice] inserts at: the requested one inside the array,
    the end beyond it, counted from the end when negative. *)
Lemma splice_start_cases (len : nat) (start : Z) :
  (0 <= start <= Z.of_nat len -> Z.of_nat (splice_start len start) = start)
  /\ (Z.of_nat len < start -> Z.of_nat (splice_start len start) = Z.of_nat len)
  /\ (start < 0 -> Z.of_nat (splice_start len start) = Z.max (Z.of_nat len + start) 0).
Proof.
  unfold splice_start. destruct (start <? 0) eqn:Hs.
  - apply Z.ltb_lt in Hs. repeat split; intros; lia.
  - apply Z.ltb_ge in Hs. repeat split; intros; lia.
Qed.

Lemma filter_two_way {A : Type} (p : A -> bool) (arr : list A) :
  List.filter (fun x => negb (p x)) arr ++ List.filter p arr ≡ₚ arr.
Proof.
  induction arr as [|x arr IH]; [reflexivity|].
  cbn [List.filter]. destruct (p x); cbn [negb].
  - rewrite <- Permutation_middle. rewrite IH. reflexivity.
  - cbn [app]. rewrite IH. reflexivity.
Qed.

Lemma in_delete_other {A : Type} (arr : list A) (i : nat) (m x : A) :
  arr !! i = Some m -> In x arr -> x <> m -> In x (delete i arr).
Proof.
  intros Hm Hx Hne. apply list_elem_of_In in Hx.
  rewrite (delete_Permutation arr i m Hm) in Hx. apply elem_of_cons in Hx as [->|Hx].
  - contradiction.
  - apply list_elem_of_In. exact Hx.
Qed.

Lemma find_unique {A : Type} (p : A -> bool) (arr : list A) (x : A) :
  In x arr -> p x = true -> (forall y, In y arr -> p y = true -> y = x) ->
  List.find p arr = Some x.
Proof.
  intros Hin Hp Huniq. destruct (List.find p arr) as [y|] eqn:Hf.
  - apply List.find_some in Hf as [Hy Hpy]. f_equal. apply Huniq; assumption.
  - rewrite (List.find_none _ _ Hf x Hin) in Hp. discriminate Hp.
Qed.

(** A card is in one group only. *)
Lemma in_group_unique (h : list Card.t) (l : loc) (col col' : KanbanId) (swim swim' : OptId) :
  in_group h col swim l = true -> in_group h col' swim' l = true ->
  (col, swim) = (col', swim').
Proof.
  unfold in_group, id_eq, strict_eq. intros H1 H2.
  apply andb_prop in H1 as [Hc Hs]. apply andb_prop in H2 as [Hc' Hs'].
  apply bool_decide_eq_true in Hc, Hs, Hc', Hs'. congruence.
Qed.

(** *** [moveCard] between two different groups *)

Section MoveCardFound.
Variables (h : list Card.t) (cards : list loc) (e : CardMoveEvent) (idx : nat).
Hypothesis Hwf : well_formed h cards.
Hypothesis Hfound :
  findIndex (fun c => id_eq (Card.id (deref h c)) (Card.id (deref h (card e)))) cards
  = Some idx.

(** The pieces of the result, read off the store before the call. *)
Local Abbreviation moved := (cards !!! idx).
Local Abbreviation fresh := (length h).
Local Abbreviation rest := (splice_remove cards idx).
Local Abbreviation sourceCards :=
  (List.filter (in_group h (fromColumnId e) (fromSwimlaneId e)) rest).
Local Abbreviation targetCards :=
  (splice_insert (List.filter (in_group h (toColumnId e) (toSwimlaneId e)) rest)
                 (toIndex e) fresh).
Local Abbreviation otherCards :=
  (List.filter (fun c => negb (in_group h (toColumnId e) (toSwimlaneId e) c)
                         && negb (in_group h (fromColumnId e) (fromSwimlaneId e) c)) rest).
Local Abbreviation store1 :=
  (h ++ [Card.mk (Card.id (deref h moved)) (toColumnId e) (Card.title (deref h moved))
                 (toIndex e) (toSwimlaneId e) (Card.draggable (deref h moved))]).
Local Abbreviation store3 := (renumber (renumber store1 sourceCards) targetCards).

Lemma moved_lookup : cards !! idx = Some moved.
Proof.
  destruct (findIndex_Some _ _ _ Hfound) as (x & Hx & _).
  rewrite (list_lookup_total_correct _ _ _ Hx). exact Hx.
Qed.

Lemma rest_valid (l : loc) : In l rest -> (l < length h)%nat.
Proof.
  intros Hin. unfold splice_remove in Hin. apply list_elem_of_In in Hin.
  apply list_elem_of_delete_inv in Hin.
  unfold well_formed in Hwf. rewrite Forall_forall in Hwf. apply Hwf. exact Hin.
Qed.

Lemma store3_same_groups : same_groups store1 store3.
Proof.
  unfold renumber.
  eapply same_groups_trans; apply renumber_from_same_groups.
Qed.

Lemma in_group_store (h' : list Card.t) (col : KanbanId) (swim : OptId) (l : loc) :
  same_groups store1 h' -> In l rest -> in_group h' col swim l = in_group h col swim l.
Proof.
  intros Hs Hin. rewrite (in_group_same_groups _ _ _ _ _ Hs).
  unfold in_group. rewrite deref_alloc_old by (apply rest_valid; exact Hin).
  reflexivity.
Qed.

(** The result of [moveCard] in terms of these pieces. *)
Lemma moveCard_found :
  moveCard h cards e = (store3, otherCards ++ targetCards ++ sourceCards).
Proof.
  unfold moveCard. rewrite Hfound. cbn [alloc].
  assert (Hs1 : same_groups store1 store1) by (intros l; auto).
  assert (HS : List.filter (in_group store1 (fromColumnId e) (fromSwimlaneId e)) rest
               = sourceCards).
  { apply List.filter_ext_in. intros l Hl. apply in_group_store; assumption. }
  rewrite HS.
  assert (Hs2 : same_groups store1 (renumber store1 sourceCards))
    by apply renumber_from_same_groups.
  assert (HT : splice_insert
                 (List.filter (in_group (renumber store1 sourceCards)
                                 (toColumnId e) (toSwimlaneId e)) rest)
                 (toIndex e) fresh = targetCards).
  { f_equal. apply List.filter_ext_in. intros l Hl.
    apply in_group_store; assumption. }
  rewrite HT. f_equal. f_equal; [|f_equal].
  - apply List.filter_ext_in. intros l Hl.
    rewrite !(in_group_store _ _ _ _ store3_same_groups Hl). reflexivity.
  - apply List.filter_ext_in. intros l Hl.
    apply in_group_store; [apply store3_same_groups | exact Hl].
Qed.

Lemma store3_id_old (l : loc) :
  (l < length h)%nat -> Card.id (deref store3 l) = Card.id (deref h l).
Proof.
  intros Hl. destruct (store3_same_groups l) as (-> & _).
  rewrite deref_alloc_old by exact Hl. reflexivity.
Qed.

Lemma store3_id_fresh : Card.id (deref store3 fresh) = Card.id (deref h moved).
Proof.
  destruct (store3_same_groups fresh) as (-> & _).
  rewrite deref_alloc_new. reflexivity.
Qed.

Hypothesis Hdiff :
  (fromColumnId e, fromSwimlaneId e) <> (toColumnId e, toSwimlaneId e).

(** The returned array consists of the new object and the references of
    the input other than the moved one. *)
Lemma moveCard_result_perm : otherCards ++ targetCards ++ sourceCards ≡ₚ fresh :: rest.
Proof.
  rewrite splice_insert_perm. cbn [app]. rewrite <- Permutation_middle.
  apply Permutation_cons; [reflexivity|].
  apply filter_three_way.
  intros l _ Ht Hs. apply Hdiff. symmetry. eapply in_group_unique; eassumption.
Qed.

Lemma moveCard_found_ids :
  card_ids store3 (otherCards ++ targetCards ++ sourceCards) ≡ₚ card_ids h cards.
Proof.
  unfold card_ids. rewrite moveCard_result_perm. cbn [map].
  rewrite store3_id_fresh.
  rewrite (Permutation_map (fun c => Card.id (deref h c))
             (delete_Permutation _ _ _ moved_lookup)).
  cbn [map]. apply Permutation_cons; [reflexivity|].
  fold (splice_remove cards idx).
  erewrite map_ext_in; [reflexivity|]. intros l Hl. cbn.
  apply store3_id_old. apply rest_valid. exact Hl.
Qed.

Hypothesis Hnd : NoDup cards.
Hypothesis Hsrc : in_group h (fromColumnId e) (fromSwimlaneId e) moved = true.

Lemma rest_NoDup : NoDup rest.
Proof. eapply sublist_NoDup; [exact Hnd | apply sublist_delete]. Qed.

Lemma fresh_not_in_rest : ~ In fresh rest.
Proof. intros Hin. apply rest_valid in Hin. lia. Qed.

Lemma stdlib_NoDup_filter (f : loc -> bool) (arr : list loc) :
  NoDup arr -> NoDup (List.filter f arr).
Proof. rewrite !NoDup_ListNoDup. apply List.NoDup_filter. Qed.

Lemma targetCards_NoDup : NoDup targetCards.
Proof.
  rewrite splice_insert_perm. apply NoDup_cons. split.
  - rewrite list_elem_of_In. intros Hin. apply List.filter_In in Hin as [Hin _].
    apply fresh_not_in_rest. exact Hin.
  - apply stdlib_NoDup_filter. apply rest_NoDup.
Qed.

Lemma in_targetCards (l : loc) :
  In l targetCards <->
  l = fresh \/ (In l rest /\ in_group h (toColumnId e) (toSwimlaneId e) l = true).
Proof.
  rewrite <- !list_elem_of_In. rewrite splice_insert_perm. rewrite elem_of_cons.
  rewrite !list_elem_of_In. rewrite List.filter_In. reflexivity.
Qed.

Lemma in_group_fresh (col : KanbanId) (swim : OptId) :
  in_group store3 col swim fresh
  = id_eq (toColumnId e) col && strict_eq (toSwimlaneId e) swim.
Proof.
  rewrite (in_group_same_groups _ _ _ _ _ store3_same_groups).
  unfold in_group. rewrite deref_alloc_new. reflexivity.
Qed.

Lemma in_group_rest (col : KanbanId) (swim : OptId) (l : loc) :
  In l rest -> in_group store3 col swim l = in_group h col swim l.
Proof. apply in_group_store. apply store3_same_groups. Qed.

Lemma not_in_two_groups (l : loc) (col col' : KanbanId) (swim swim' : OptId) :
  (col, swim) <> (col', swim') ->
  in_group h col swim l = true -> in_group h col' swim' l = false.
Proof.
  intros Hne Hin. destruct (in_group h col' swim' l) eqn:Hin'; [|reflexivity].
  exfalso. apply Hne. eapply in_group_unique; eassumption.
Qed.

(** Orders in the target group after the move: [0 .. n-1] in array
    order. *)
Lemma target_orders :
  map (fun l => Card.order (deref store3 l)) targetCards
  = seqZ 0 (Z.of_nat (length targetCards)).
Proof.
  apply map_renumber_orders; [apply targetCards_NoDup|].
  unfold well_formed, renumber. rewrite renumber_from_length, length_app. cbn.
  apply Forall_forall. intros l Hl. apply list_elem_of_In, in_targetCards in Hl as [->|[Hl _]].
  - lia.
  - apply rest_valid in Hl. lia.
Qed.

(** Orders in the source group after the move. *)
Lemma source_orders :
  map (fun l => Card.order (deref store3 l)) sourceCards
  = seqZ 0 (Z.of_nat (length sourceCards)).
Proof.
  rewrite <- (map_renumber_orders store1 sourceCards).
  - apply map_ext_in. intros l Hl. cbn. f_equal. unfold renumber at 1.
    apply renumber_from_other. intros Hin.
    apply List.filter_In in Hl as [Hl Hs].
    apply in_targetCards in Hin as [->|[_ Ht]].
    + apply fresh_not_in_rest. exact Hl.
    + rewrite (not_in_two_groups _ _ _ _ _ Hdiff Hs) in Ht. discriminate Ht.
  - apply stdlib_NoDup_filter. apply rest_NoDup.
  - unfold well_formed. rewrite length_app. cbn. apply Forall_forall.
    intros l Hl. apply list_elem_of_In, List.filter_In in Hl as [Hl _].
    apply rest_valid in Hl. lia.
Qed.

(** Cards of the other groups are not touched. *)
Lemma other_unchanged (l : loc) :
  In l rest ->
  in_group h (toColumnId e) (toSwimlaneId e) l = false ->
  in_group h (fromColumnId e) (fromSwimlaneId e) l = false ->
  deref store3 l = deref h l.
Proof.
  intros Hl Ht Hs. unfold renumber.
  rewrite renumber_from_other.
  - rewrite renumber_from_other.
    + apply deref_alloc_old. apply rest_valid. exact Hl.
    + intros Hin. apply List.filter_In in Hin as [_ Hin]. congruence.
  - intros Hin. apply in_targetCards in Hin as [->|[_ Hin]].
    + apply fresh_not_in_rest. exact Hl.
    + congruence.
Qed.

Lemma moveCard_found_NoDup : NoDup (otherCards ++ targetCards ++ sourceCards).
Proof.
  rewrite moveCard_result_perm. apply NoDup_cons. split; [|apply rest_NoDup].
  rewrite list_elem_of_In. apply fresh_not_in_rest.
Qed.

Lemma moveCard_found_well_formed :
  well_formed store3 (otherCards ++ targetCards ++ sourceCards).
Proof.
  unfold well_formed. rewrite moveCard_result_perm.
  unfold renumber. rewrite !renumber_from_length, length_app. cbn.
  apply Forall_cons. split; [lia|]. apply Forall_forall. intros l Hl.
  apply list_elem_of_In, rest_valid in Hl. lia.
Qed.

Hypothesis Hdense : dense h cards.

Lemma moveCard_found_dense : dense store3 (otherCards ++ targetCards ++ sourceCards).
Proof.
  intros col swim. unfold group_orders at 1 2. rewrite !List.filter_app.
  destruct (decide ((col, swim) = (toColumnId e, toSwimlaneId e))) as [Hto|Hto];
    [|destruct (decide ((col, swim) = (fromColumnId e, fromSwimlaneId e))) as [Hfrom|Hfrom]].
  - (* the target group *)
    injection Hto as -> ->.
    rewrite (filter_none _ otherCards), (filter_all _ targetCards), (filter_none _ sourceCards).
    + cbn [app]. rewrite app_nil_r. apply dense_of_seqZ.
      rewrite target_orders at 1. rewrite length_map. reflexivity.
    + intros l Hl. apply List.filter_In in Hl as [Hl Hs].
      rewrite in_group_rest by exact Hl. apply (not_in_two_groups _ _ _ _ _ Hdiff Hs).
    + intros l Hl. apply in_targetCards in Hl as [->|[Hl Ht]].
      * rewrite in_group_fresh. unfold id_eq, strict_eq.
        rewrite !bool_decide_eq_true_2 by reflexivity. reflexivity.
      * rewrite in_group_rest by exact Hl. exact Ht.
    + intros l Hl. apply List.filter_In in Hl as [Hl Hn].
      rewrite in_group_rest by exact Hl.
      apply andb_prop in Hn as [Hn _]. apply negb_true_iff in Hn. exact Hn.
  - (* the source group *)
    injection Hfrom as -> ->.
    rewrite (filter_none _ otherCards), (filter_none _ targetCards), (filter_all _ sourceCards).
    + cbn [app]. apply dense_of_seqZ.
      rewrite source_orders at 1. rewrite length_map. reflexivity.
    + intros l Hl. apply List.filter_In in Hl as [Hl Hs].
      rewrite in_group_rest by exact Hl. exact Hs.
    + intros l Hl. apply in_targetCards in Hl as [->|[Hl Ht]].
      * rewrite in_group_fresh. unfold id_eq, strict_eq.
        destruct (bool_decide (toColumnId e = fromColumnId e)) eqn:Hc; [|reflexivity].
        destruct (bool_decide (toSwimlaneId e = fromSwimlaneId e)) eqn:Hw; [|reflexivity].
        apply bool_decide_eq_true in Hc, Hw. exfalso. apply Hdiff. congruence.
      * rewrite in_group_rest by exact Hl.
        apply (not_in_two_groups l (toColumnId e) (fromColumnId e)
                 (toSwimlaneId e) (fromSwimlaneId e)); [congruence | exact Ht].
    + intros l Hl. apply List.filter_In in Hl as [Hl Hn].
      rewrite in_group_rest by exact Hl.
      apply andb_prop in Hn as [_ Hn]. apply negb_true_iff in Hn. exact Hn.
  - (* any other group *)
    rewrite (filter_none _ targetCards), (filter_none _ sourceCards).
    + cbn [app]. rewrite app_nil_r.
      assert (Hsame : map (fun c => Card.order (deref store3 c))
                        (List.filter (in_group store3 col swim) otherCards)
                      = group_orders h cards col swim).
      { unfold group_orders.
        rewrite <- (filter_delete_outside (in_group h col swim) cards idx moved moved_lookup)
          by (apply (not_in_two_groups moved (fromColumnId e) col (fromSwimlaneId e) swim);
              [congruence | exact Hsrc]).
        fold (splice_remove cards idx).
        rewrite (List.filter_ext_in (in_group store3 col swim) (in_group h col swim) otherCards)
          by (intros l Hl; apply List.filter_In in Hl as [Hl _]; apply in_group_rest; exact Hl).
        rewrite filter_filter_implied.
        - apply map_ext_in. intros l Hl. apply List.filter_In in Hl as [Hl Hg]. cbn. f_equal.
          apply other_unchanged; [exact Hl | |];
            apply (not_in_two_groups l col _ swim _); congruence || exact Hg.
        - intros l Hl Hg.
          rewrite (not_in_two_groups l col (toColumnId e) swim (toSwimlaneId e)) by assumption.
          rewrite (not_in_two_groups l col (fromColumnId e) swim (fromSwimlaneId e))
            by assumption.
          reflexivity. }
      rewrite Hsame. apply Hdense.
    + intros l Hl. apply List.filter_In in Hl as [Hl Hs].
      rewrite in_group_rest by exact Hl.
      apply (not_in_two_groups l (fromColumnId e) col (fromSwimlaneId e) swim);
        [congruence | exact Hs].
    + intros l Hl. apply in_targetCards in Hl as [->|[Hl Ht]].
      * rewrite in_group_fresh. unfold id_eq, strict_eq.
        destruct (bool_decide (toColumnId e = col)) eqn:Hc; [|reflexivity].
        destruct (bool_decide (toSwimlaneId e = swim)) eqn:Hw; [|reflexivity].
        apply bool_decide_eq_true in Hc, Hw. exfalso. apply Hto. congruence.
      * rewrite in_group_rest by exact Hl.
        apply (not_in_two_groups l (toColumnId e) col (toSwimlaneId e) swim);
          [congruence | exact Ht].
Qed.
(** The new object of the moved card. *)
Lemma store3_same_but_order : same_but_order store1 store3.
Proof.
  unfold renumber.
  eapply same_but_order_trans; apply renumber_from_same_but_order.
Qed.

Lemma fresh_position :
  targetCards
  !! splice_start (length (List.filter (in_group h (toColumnId e) (toSwimlaneId e)) rest))
                  (toIndex e)
  = Some fresh.
Proof.
  unfold splice_insert. apply list_lookup_middle. rewrite length_take.
  symmetry. apply Nat.min_l. apply splice_start_le.
Qed.

Lemma fresh_card :
  deref store3 fresh
  = Card.mk (Card.id (deref h moved)) (toColumnId e) (Card.title (deref h moved))
            (Z.of_nat (splice_start
                         (length (List.filter (in_group h (toColumnId e) (toSwimlaneId e))
                                              rest))
                         (toIndex e)))
            (toSwimlaneId e) (Card.draggable (deref h moved)).
Proof.
  pose proof target_orders as Hord. pose proof fresh_position as Hpos.
  set (k := splice_start _ _) in *.
  assert (Hk : Card.order (deref store3 fresh) = Z.of_nat k).
  { assert (Hlk : map (fun l => Card.order (deref store3 l)) targetCards !! k
                  = Some (Card.order (deref store3 fresh))).
    { apply list_lookup_fmap_Some. exists fresh. split; [reflexivity | exact Hpos]. }
    rewrite Hord in Hlk. apply lookup_seqZ in Hlk as [-> _]. lia. }
  destruct (store3_same_but_order fresh) as [o Ho]. rewrite Ho in Hk |- *.
  rewrite deref_alloc_new in *. cbn in Hk. subst o. reflexivity.
Qed.
End MoveCardFound.

(** The multiset of card ids is preserved by every [moveCard] whose
    source and target groups differ. *)
Theorem moveCard_cross_group_ids (h : list Card.t) (cards : list loc) (e : CardMoveEvent) :
  well_formed h cards ->
  (fromColumnId e, fromSwimlaneId e) <> (toColumnId e, toSwimlaneId e) ->
  let '(h', updated) := moveCard h cards e in
  card_ids h' updated ≡ₚ card_ids h cards.
Proof.
  intros Hwf Hdiff.
  destruct (findIndex (fun c => id_eq (Card.id (deref h c)) (Card.id (deref h (card e)))) cards)
    as [idx|] eqn:Hf.
  - rewrite (moveCard_found h cards e idx Hwf Hf).
    apply moveCard_found_ids; assumption.
  - unfold moveCard. rewrite Hf. reflexivity.
Qed.

Lemma findIndex_find {A : Type} `{Inhabited A} (p : A -> bool) (arr : list A) (i : nat) :
  findIndex p arr = Some i -> List.find p arr = Some (arr !!! i).
Proof.
  revert i. induction arr as [|y arr IH]; intros i; cbn; [discriminate|].
  destruct (p y) eqn:Hp.
  - intros [= <-]. reflexivity.
  - destruct (findIndex p arr) as [j|]; cbn; [|discriminate].
    intros [= <-]. apply IH. reflexivity.
Qed.

(** Density survives every [moveCard] between two different groups,
    provided the array holds no object twice and the event names as
    source the group the moved card is in. *)
Theorem moveCard_cross_group_dense (h : list Card.t) (cards : list loc) (e : CardMoveEvent) :
  well_formed h cards ->
  NoDup cards ->
  (fromColumnId e, fromSwimlaneId e) <> (toColumnId e, toSwimlaneId e) ->
  (forall c, getCardById h cards (Card.id (deref h (card e))) = Some c ->
             in_group h (fromColumnId e) (fromSwimlaneId e) c = true) ->
  dense h cards ->
  let '(h', updated) := moveCard h cards e in
  dense h' updated.
Proof.
  intros Hwf Hnd Hdiff Hsrc Hdense.
  destruct (findIndex (fun c => id_eq (Card.id (deref h c)) (Card.id (deref h (card e)))) cards)
    as [idx|] eqn:Hf.
  - rewrite (moveCard_found h cards e idx Hwf Hf).
    apply moveCard_found_dense; try assumption.
    apply Hsrc. unfold getCardById. apply findIndex_find. exact Hf.
  - unfold moveCard. rewrite Hf. exact Hdense.
Qed.

(** One such move keeps everything the next one needs. *)
Lemma moveCard_cross_group_step (h : list Card.t) (cards : list loc) (e : CardMoveEvent)
    (h' : list Card.t) (cards' : list loc) :
  well_formed h cards -> NoDup cards -> dense h cards ->
  cross_group_request h cards e ->
  moveCard h cards e = (h', cards') ->
  well_formed h' cards' /\ NoDup cards' /\ dense h' cards'
  /\ card_ids h' cards' ≡ₚ card_ids h cards.
Proof.
  intros Hwf Hnd Hd [Hdiff Hsrc] Hmove.
  destruct (findIndex (fun c => id_eq (Card.id (deref h c)) (Card.id (deref h (card e))))
              cards) as [idx|] eqn:Hf.
  - rewrite (moveCard_found h cards e idx Hwf Hf) in Hmove. injection Hmove as <- <-.
    assert (Hin : in_group h (fromColumnId e) (fromSwimlaneId e) (cards !!! idx) = true).
    { apply Hsrc. unfold getCardById. apply findIndex_find. exact Hf. }
    split; [apply moveCard_found_well_formed; assumption|].
    split; [apply moveCard_found_NoDup; assumption|].
    split; [apply moveCard_found_dense; assumption|].
    apply moveCard_found_ids; assumption.
  - unfold moveCard in Hmove. rewrite Hf in Hmove. injection Hmove as <- <-.
    repeat split; auto.
Qed.

(** Every sequence of moves, each between two different groups and
    each naming as source the group its card is in, keeps a dense board
    dense and keeps the multiset of card ids. *)
Theorem cross_group_moves_dense (h : list Card.t) (cards : list loc)
    (h' : list Card.t) (cards' : list loc) :
  cross_group_moves h cards h' cards' ->
  well_formed h cards -> NoDup cards -> dense h cards ->
  dense h' cards' /\ card_ids h' cards' ≡ₚ card_ids h cards.
Proof.
  induction 1 as [h cards | h cards e h1 cards1 h2 cards2 Hreq Hmove _ IH];
    intros Hwf Hnd Hd; [split; [exact Hd | reflexivity]|].
  destruct (moveCard_cross_group_step _ _ _ _ _ Hwf Hnd Hd Hreq Hmove)
    as (Hwf1 & Hnd1 & Hd1 & Hids1).
  destruct (IH Hwf1 Hnd1 Hd1) as [Hd2 Hids2].
  split; [exact Hd2|]. rewrite Hids2. exact Hids1.
Qed.

(** The cross-column scenario is such a sequence of one move. *)
Lemma cross_group_moves_dense_witness :
  let b := Scenario.board in
  let '(h, updated) := moveCard (cardStore b) (cards b) Scenario.move_c1_to_B in
  cross_group_moves (cardStore b) (cards b) h updated /\ dense h updated.
Proof.
  cbv zeta. destruct (moveCard _ _ _) as [h updated] eqn:Hmove.
  assert (Hseq : cross_group_moves (cardStore Scenario.board) (cards Scenario.board) h updated).
  { eapply moves_step; [|exact Hmove|apply moves_done]. split.
    - intros Heq. discriminate Heq.
    - intros c Hc. vm_compute in Hc. injection Hc as <-. reflexivity. }
  split; [exact Hseq|].
  apply (cross_group_moves_dense _ _ _ _ Hseq).
  - repeat constructor.
  - repeat constructor; rewrite ?elem_of_cons; rewrite ?elem_of_nil; intuition lia.
  - dense_by_cases.
Defined.

Lemma moveCard_cross_group_ids_witness :
  let b := Scenario.board in
  let '(h, updated) := moveCard (cardStore b) (cards b) Scenario.move_c1_to_B in
  card_ids h updated ≡ₚ card_ids (cardStore b) (cards b).
Proof.
  apply (moveCard_cross_group_ids (cardStore Scenario.board) (cards Scenario.board)
           Scenario.move_c1_to_B).
  - unfold well_formed. cbn. repeat constructor.
  - intros Heq. discriminate Heq.
Defined.

Lemma moveCard_cross_group_dense_witness :
  let b := Scenario.board in
  let '(h, updated) := moveCard (cardStore b) (cards b) Scenario.move_c1_to_B in
  dense h updated.
Proof.
  apply (moveCard_cross_group_dense (cardStore Scenario.board) (cards Scenario.board)
           Scenario.move_c1_to_B).
  - unfold well_formed. cbn. repeat constructor.
  - repeat constructor; rewrite ?elem_of_cons; rewrite ?elem_of_nil; intuition lia.
  - intros Heq. discriminate Heq.
  - intros c Hc. vm_compute in Hc. injection Hc as <-. reflexivity.
  - dense_by_cases.
Defined.

(** *** What a move does to the moved card and to the others *)

(** The moved card becomes a new object in the returned array: it keeps
    the id, title and drag flag of the card found, carries the target
    column and swimlane, and its [order] is the index [splice] inserts
    at -- the requested index inside the target group, the group's size
    beyond it, and an index counted from the end when it is negative. *)
Theorem moveCard_moved_card (h : list Card.t) (cards : list loc) (e : CardMoveEvent)
    (idx : nat) :
  well_formed h cards ->
  NoDup cards ->
  findIndex (fun c => id_eq (Card.id (deref h c)) (Card.id (deref h (card e)))) cards
  = Some idx ->
  let old := deref h (cards !!! idx) in
  let n := Z.of_nat (length (List.filter (in_group h (toColumnId e) (toSwimlaneId e))
                                         (splice_remove cards idx))) in
  let '(h', updated) := moveCard h cards e in
  exists o,
    In (length h) updated
    /\ deref h' (length h)
       = Card.mk (Card.id old) (toColumnId e) (Card.title old) o (toSwimlaneId e)
                 (Card.draggable old)
    /\ (0 <= toIndex e <= n -> o = toIndex e)
    /\ (n < toIndex e -> o = n)
    /\ (toIndex e < 0 -> o = Z.max (n + toIndex e) 0).
Proof.
  intros Hwf Hnd Hf old n. rewrite (moveCard_found h cards e idx Hwf Hf).
  exists (Z.of_nat (splice_start
                      (length (List.filter (in_group h (toColumnId e) (toSwimlaneId e))
                                           (splice_remove cards idx)))
                      (toIndex e))).
  split; [|split].
  - apply in_or_app. right. apply in_or_app. left.
    apply in_targetCards. left. reflexivity.
  - apply fresh_card; assumption.
  - apply splice_start_cases.
Qed.

Lemma moveCard_moved_card_witness :
  let b := Scenario.board in
  let '(h', updated) := moveCard (cardStore b) (cards b) Scenario.move_c1_to_B in
  exists o,
    In 3%nat updated
    /\ deref h' 3%nat = Card.mk (IdStr "c1") Scenario.B "c1" o Undefined None
    /\ (0 <= 0 <= 1 -> o = 0) /\ (1 < 0 -> o = 1) /\ (0 < 0 -> o = Z.max (1 + 0) 0).
Proof.
  apply (moveCard_moved_card (cardStore Scenario.board) (cards Scenario.board)
           Scenario.move_c1_to_B 0%nat).
  - unfold well_formed. cbn. repeat constructor.
  - repeat constructor; rewrite ?elem_of_cons; rewrite ?elem_of_nil; intuition lia.
  - reflexivity.
Defined.

(** A card with another id that lies in neither the source nor the
    target group of the request is still in the returned array, as the
    same object with the same field values. *)
Theorem moveCard_other_cards_untouched (h : list Card.t) (cards : list loc)
    (e : CardMoveEvent) (l : loc) :
  well_formed h cards ->
  In l cards ->
  Card.id (deref h l) <> Card.id (deref h (card e)) ->
  in_group h (toColumnId e) (toSwimlaneId e) l = false ->
  in_group h (fromColumnId e) (fromSwimlaneId e) l = false ->
  let '(h', updated) := moveCard h cards e in
  deref h' l = deref h l /\ In l updated.
Proof.
  intros Hwf Hin Hid Ht Hs.
  destruct (findIndex (fun c => id_eq (Card.id (deref h c)) (Card.id (deref h (card e)))) cards)
    as [idx|] eqn:Hf.
  - rewrite (moveCard_found h cards e idx Hwf Hf).
    destruct (findIndex_Some _ _ _ Hf) as (m & Hm & Hp).
    unfold id_eq in Hp. apply bool_decide_eq_true in Hp.
    assert (Hrest : In l (splice_remove cards idx)).
    { apply (in_delete_other cards idx m l Hm Hin). intros ->. contradiction. }
    split.
    + apply other_unchanged; assumption.
    + apply in_or_app. left. apply List.filter_In. split; [exact Hrest|].
      rewrite Ht, Hs. reflexivity.
  - unfold moveCard. rewrite Hf. auto.
Qed.

Lemma moveCard_other_cards_untouched_witness :
  let b := Scenario.board in
  let e := mkCardMove 0%nat Scenario.A (IdStr "C") 0 0 Undefined Undefined in
  let '(h', updated) := moveCard (cardStore b) (cards b) e in
  deref h' 2%nat = deref (cardStore b) 2%nat /\ In 2%nat updated.
Proof.
  apply (moveCard_other_cards_untouched (cardStore Scenario.board) (cards Scenario.board)
           (mkCardMove 0%nat Scenario.A (IdStr "C") 0 0 Undefined Undefined) 2%nat).
  - unfold well_formed. cbn. repeat constructor.
  - right. right. left. reflexivity.
  - intros Heq. discriminate Heq.
  - reflexivity.
  - reflexivity.
Defined.

(** When the request names the same group as source and as target, the
    returned array holds, besides the cards of the input, every other
    card of that group a second time. *)
Theorem moveCard_same_group_ids (h : list Card.t) (cards : list loc) (e : CardMoveEvent)
    (idx : nat) :
  well_formed h cards ->
  findIndex (fun c => id_eq (Card.id (deref h c)) (Card.id (deref h (card e)))) cards
  = Some idx ->
  (fromColumnId e, fromSwimlaneId e) = (toColumnId e, toSwimlaneId e) ->
  let '(h', updated) := moveCard h cards e in
  card_ids h' updated
  ≡ₚ card_ids h cards
     ++ card_ids h (List.filter (in_group h (toColumnId e) (toSwimlaneId e))
                                (splice_remove cards idx)).
Proof.
  intros Hwf Hf Hsame. rewrite (moveCard_found h cards e idx Hwf Hf).
  injection Hsame as Hc Hs.
  assert (Hgrp : forall c, in_group h (fromColumnId e) (fromSwimlaneId e) c
                           = in_group h (toColumnId e) (toSwimlaneId e) c).
  { intros c. rewrite Hc, Hs. reflexivity. }
  set (T := List.filter (in_group h (toColumnId e) (toSwimlaneId e)) (splice_remove cards idx)).
  set (h3 := renumber _ _).
  assert (Hold : forall l, In l (splice_remove cards idx) ->
                           Card.id (deref h3 l) = Card.id (deref h l)).
  { intros l Hl. subst h3. apply store3_id_old.
    apply (rest_valid h cards idx Hwf). exact Hl. }
  assert (HT : forall l, In l T -> In l (splice_remove cards idx)).
  { intros l Hl. apply List.filter_In in Hl. tauto. }
  assert (Hperm : List.filter
                    (fun c => negb (in_group h (toColumnId e) (toSwimlaneId e) c)
                              && negb (in_group h (fromColumnId e) (fromSwimlaneId e) c))
                    (splice_remove cards idx)
                  ++ splice_insert T (toIndex e) (length h)
                  ++ List.filter (in_group h (fromColumnId e) (fromSwimlaneId e))
                                 (splice_remove cards idx)
                  ≡ₚ (length h :: splice_remove cards idx) ++ T).
  { rewrite (List.filter_ext _ _ Hgrp). fold T.
    rewrite splice_insert_perm. rewrite app_assoc. apply Permutation_app; [|reflexivity].
    rewrite <- Permutation_middle. apply Permutation_cons; [reflexivity|].
    rewrite (List.filter_ext _ (fun c => negb (in_group h (toColumnId e) (toSwimlaneId e) c)))
      by (intros c; rewrite Hgrp;
          destruct (in_group h (toColumnId e) (toSwimlaneId e) c); reflexivity).
    apply filter_two_way. }
  unfold card_ids. rewrite Hperm. rewrite !map_app. cbn [map].
  apply Permutation_app.
  - subst h3. rewrite store3_id_fresh.
    destruct (findIndex_Some _ _ _ Hf) as (m & Hm & _).
    rewrite (Permutation_map (fun c => Card.id (deref h c)) (delete_Permutation _ _ _ Hm)).
    cbn [map]. rewrite <- (list_lookup_total_correct _ _ _ Hm).
    apply Permutation_cons; [reflexivity|].
    fold (splice_remove cards idx).
    erewrite map_ext_in; [reflexivity|]. intros l Hl. cbn. apply Hold. exact Hl.
  - erewrite map_ext_in; [reflexivity|]. intros l Hl. cbn. apply Hold. apply HT. exact Hl.
Qed.

Lemma moveCard_same_group_ids_witness :
  let b := Scenario.boardA in
  let '(h', updated) := moveCard (cardStore b) (cards b) Scenario.move_c2_up in
  card_ids h' updated ≡ₚ [IdStr "c1"; IdStr "c2"] ++ [IdStr "c1"].
Proof.
  apply (moveCard_same_group_ids (cardStore Scenario.boardA) (cards Scenario.boardA)
           Scenario.move_c2_up 1%nat).
  - unfold well_formed. cbn. repeat constructor.
  - reflexivity.
  - reflexivity.
Defined.

Lemma other_ids_differ (h : list Card.t) (cards : list loc) (idx : nat) (m l : loc) :
  NoDup (card_ids h cards) -> cards !! idx = Some m -> In l (splice_remove cards idx) ->
  Card.id (deref h l) <> Card.id (deref h m).
Proof.
  unfold card_ids. intros Hnd Hm Hl Heq.
  rewrite (Permutation_map (fun c => Card.id (deref h c)) (delete_Permutation _ _ _ Hm)) in Hnd.
  cbn [map] in Hnd. apply NoDup_cons in Hnd as [Hnotin _]. apply Hnotin.
  rewrite <- Heq. apply list_elem_of_In.
  apply (List.in_map (fun c => Card.id (deref h c))). exact Hl.
Qed.

(** With unique card ids, looking the moved card up by its id after the
    move yields the new object, which lies in the target group. *)
Theorem moveCard_then_getCardById (h : list Card.t) (cards : list loc) (e : CardMoveEvent) :
  well_formed h cards ->
  NoDup (card_ids h cards) ->
  is_Some (getCardById h cards (Card.id (deref h (card e)))) ->
  let '(h', updated) := moveCard h cards e in
  getCardById h' updated (Card.id (deref h (card e))) = Some (length h)
  /\ Card.columnId (deref h' (length h)) = toColumnId e
  /\ Card.swimlaneId (deref h' (length h)) = toSwimlaneId e.
Proof.
  intros Hwf Hnd [c Hc].
  destruct (findIndex (fun c => id_eq (Card.id (deref h c)) (Card.id (deref h (card e)))) cards)
    as [idx|] eqn:Hf.
  2:{ unfold getCardById in Hc. apply List.find_some in Hc as [Hin Hp].
      exfalso. clear Hwf Hnd. induction cards as [|y ys IH]; [destruct Hin|].
      cbn in Hf. destruct (id_eq (Card.id (deref h y)) _) eqn:Hy; [discriminate|].
      destruct Hin as [->|Hin]; [congruence|].
      destruct (findIndex _ ys); [discriminate|]. apply IH; auto. }
  rewrite (moveCard_found h cards e idx Hwf Hf).
  destruct (findIndex_Some _ _ _ Hf) as (m & Hm & Hp).
  unfold id_eq in Hp. apply bool_decide_eq_true in Hp.
  set (h3 := renumber _ _).
  assert (Hfresh : Card.id (deref h3 (length h)) = Card.id (deref h (card e))).
  { subst h3. rewrite store3_id_fresh. rewrite (list_lookup_total_correct _ _ _ Hm). exact Hp. }
  split; [|split].
  - unfold getCardById. apply find_unique.
    + apply in_or_app. right. apply in_or_app. left. apply in_targetCards. left. reflexivity.
    + unfold id_eq. apply bool_decide_eq_true_2. exact Hfresh.
    + intros y Hy Hpy. unfold id_eq in Hpy. apply bool_decide_eq_true in Hpy.
      assert (Hcases : y = length h \/ In y (splice_remove cards idx)).
      { apply in_app_or in Hy as [Hy|Hy]; [apply List.filter_In in Hy; tauto|].
        apply in_app_or in Hy as [Hy|Hy]; [|apply List.filter_In in Hy; tauto].
        apply in_targetCards in Hy. tauto. }
      destruct Hcases as [->|Hy']; [reflexivity|]. exfalso.
      apply (other_ids_differ h cards idx m y Hnd Hm Hy').
      rewrite Hp, <- Hpy. subst h3. symmetry. apply store3_id_old.
      apply (rest_valid h cards idx Hwf). exact Hy'.
  - subst h3. destruct (store3_same_groups h cards e idx (length h)) as (_ & -> & _).
    rewrite deref_alloc_new. reflexivity.
  - subst h3. destruct (store3_same_groups h cards e idx (length h)) as (_ & _ & ->).
    rewrite deref_alloc_new. reflexivity.
Qed.

Lemma moveCard_then_getCardById_witness :
  let b := Scenario.board in
  let '(h', updated) := moveCard (cardStore b) (cards b) Scenario.move_c1_to_B in
  getCardById h' updated (IdStr "c1") = Some 3%nat
  /\ Card.columnId (deref h' 3%nat) = Scenario.B
  /\ Card.swimlaneId (deref h' 3%nat) = Undefined.
Proof.
  apply (moveCard_then_getCardById (cardStore Scenario.board) (cards Scenario.board)
           Scenario.move_c1_to_B).
  - unfold well_formed. cbn. repeat constructor.
  - repeat constructor; rewrite ?elem_of_cons; rewrite ?elem_of_nil; intuition discriminate.
  - eexists. reflexivity.
Defined.

(** *** [moveColumn] *)

Lemma map_reorder_from_spec (arr : list loc) (h : list Column.t) (i : Z) :
  well_formed h arr ->
  let '(h', out) := map_reorder_from h arr i in
  (exists ext, h' = h ++ ext)
  /\ length out = length arr
  /\ well_formed h' out
  /\ column_ids h' out = column_ids h arr
  /\ column_orders h' out = seqZ i (Z.of_nat (length arr)).
Proof.
  revert h i. induction arr as [|l arr IH]; intros h i Hwf.
  - cbn. split; [exists []; rewrite app_nil_r; reflexivity|].
    split; [reflexivity|]. split; [constructor|]. split; reflexivity.
  - apply Forall_cons in Hwf as [Hl Hwf]. cbn [map_reorder_from alloc].
    set (v := Column.with_order (deref h l) i).
    assert (Hwf1 : well_formed (h ++ [v]) arr).
    { unfold well_formed. rewrite length_app. cbn.
      eapply Forall_impl; [exact Hwf|]. cbn. intros; lia. }
    specialize (IH (h ++ [v]) (i + 1) Hwf1).
    destruct (map_reorder_from (h ++ [v]) arr (i + 1)) as [h2 rest].
    destruct IH as ([ext ->] & Hlen & Hwf2 & Hids & Hords).
    assert (Hfresh : deref ((h ++ [v]) ++ ext) (length h) = v).
    { unfold deref. rewrite <- app_assoc. apply list_lookup_total_middle. reflexivity. }
    split; [|split; [|split; [|split]]].
    + exists ([v] ++ ext). rewrite app_assoc. reflexivity.
    + cbn. rewrite Hlen. reflexivity.
    + apply Forall_cons. split; [|exact Hwf2]. rewrite !length_app. cbn. lia.
    + unfold column_ids in *. cbn [map]. rewrite Hfresh, Hids. f_equal.
      apply map_ext_in. intros c Hc. cbn. f_equal. apply deref_alloc_old.
      unfold well_formed in Hwf. rewrite Forall_forall in Hwf. apply Hwf.
      apply list_elem_of_In. exact Hc.
    + unfold column_orders in *. cbn [map length]. rewrite Hfresh, Hords.
      rewrite (seqZ_cons i) by lia. f_equal. f_equal; lia.
Qed.

Section MoveColumn.
Variables (h : list Column.t) (columns : list loc) (e : ColumnMoveEvent).
Hypothesis Hwf : well_formed h columns.


(** The column ids are the same before and after, with multiplicity. *)
Lemma moveColumn_ids :
  let '(h', updated) := moveColumn h columns e in
  column_ids h' updated ≡ₚ column_ids h columns.
Proof.
  unfold moveColumn.
  destruct (findIndex _ columns) as [idx|] eqn:Hf; [|reflexivity].
  destruct (findIndex_Some _ _ _ Hf) as (x & Hx & _).
  rewrite (list_lookup_total_correct _ _ _ Hx).
  assert (Hperm : splice_insert (splice_remove columns idx) (colToIndex e) x ≡ₚ columns).
  { rewrite splice_insert_perm. symmetry. apply delete_Permutation. exact Hx. }
  assert (Hwf2 : well_formed h (splice_insert (splice_remove columns idx) (colToIndex e) x)).
  { unfold well_formed. rewrite Hperm. exact Hwf. }
  pose proof (map_reorder_from_spec _ h 0 Hwf2) as Hspec.
  destruct (map_reorder_from h _ 0) as [h' out]. destruct Hspec as (_ & _ & _ & -> & _).
  unfold column_ids. apply Permutation_map. exact Hperm.
Qed.

(** After a move that finds its column, the orders are [0 .. n-1] in
    array order. *)
Lemma moveColumn_orders :
  is_Some (getColumnById h columns (Column.id (deref h (column e)))) ->
  let '(h', updated) := moveColumn h columns e in
  column_orders h' updated = seqZ 0 (Z.of_nat (length columns))
  /\ length updated = length columns.
Proof.
  intros Hsome. unfold moveColumn.
  destruct (findIndex _ columns) as [idx|] eqn:Hf.
  - destruct (findIndex_Some _ _ _ Hf) as (x & Hx & _).
    rewrite (list_lookup_total_correct _ _ _ Hx).
    assert (Hperm : splice_insert (splice_remove columns idx) (colToIndex e) x ≡ₚ columns).
    { rewrite splice_insert_perm. symmetry. apply delete_Permutation. exact Hx. }
    assert (Hwf2 : well_formed h (splice_insert (splice_remove columns idx) (colToIndex e) x)).
    { unfold well_formed. rewrite Hperm. exact Hwf. }
    pose proof (map_reorder_from_spec _ h 0 Hwf2) as Hspec.
    destruct (map_reorder_from h _ 0) as [h' out].
    destruct Hspec as (_ & Hlen & _ & _ & ->).
    rewrite Hlen. rewrite (Permutation_length Hperm). auto.
  - exfalso. destruct Hsome as [c Hc]. unfold getColumnById in Hc.
    apply List.find_some in Hc as [Hin Hp].
    clear Hwf. induction columns as [|y ys IH]; [destruct Hin|].
    cbn in Hf. destruct (id_eq (Column.id (deref h y)) _) eqn:Hy; [discriminate|].
    destruct Hin as [->|Hin]; [congruence|].
    destruct (findIndex _ ys); [discriminate|]. apply IH; auto.
Qed.

Lemma moveColumn_well_formed :
  let '(h', updated) := moveColumn h columns e in well_formed h' updated.
Proof.
  unfold moveColumn.
  destruct (findIndex _ columns) as [idx|] eqn:Hf; [|exact Hwf].
  destruct (findIndex_Some _ _ _ Hf) as (x & Hx & _).
  rewrite (list_lookup_total_correct _ _ _ Hx).
  assert (Hperm : splice_insert (splice_remove columns idx) (colToIndex e) x ≡ₚ columns).
  { rewrite splice_insert_perm. symmetry. apply delete_Permutation. exact Hx. }
  assert (Hwf2 : well_formed h (splice_insert (splice_remove columns idx) (colToIndex e) x)).
  { unfold well_formed. rewrite Hperm. exact Hwf. }
  pose proof (map_reorder_from_spec _ h 0 Hwf2) as Hspec.
  destruct (map_reorder_from h _ 0) as [h' out]. tauto.
Qed.
End MoveColumn.

(** Every sequence of [moveColumn] calls keeps the multiset of column
    ids. *)
Theorem moveColumns_ids (es : list ColumnMoveEvent) (h : list Column.t) (columns : list loc) :
  well_formed h columns ->
  let '(h', updated) := moveColumns h columns es in
  column_ids h' updated ≡ₚ column_ids h columns.
Proof.
  revert h columns. induction es as [|e es IH]; intros h columns Hwf; cbn; [reflexivity|].
  pose proof (moveColumn_ids h columns e Hwf) as Hids.
  pose proof (moveColumn_well_formed h columns e Hwf) as Hwf1.
  destruct (moveColumn h columns e) as [h1 columns1].
  specialize (IH h1 columns1 Hwf1). destruct (moveColumns h1 columns1 es) as [h2 columns2].
  rewrite IH. exact Hids.
Qed.


Lemma moveColumns_ids_witness :
  let b := Scenario.board in
  let '(h', updated) :=
    moveColumns (columnStore b) (columns b) [mkColumnMove 0%nat 0 1; mkColumnMove 1%nat 0 5] in
  column_ids h' updated ≡ₚ [Scenario.A; Scenario.B].
Proof.
  apply (moveColumns_ids [mkColumnMove 0%nat 0 1; mkColumnMove 1%nat 0 5]
           (columnStore Scenario.board) (columns Scenario.board)).
  unfold well_formed. cbn. repeat constructor.
Defined.

Lemma moveColumn_orders_witness :
  let b := Scenario.board in
  let '(h', updated) := moveColumn (columnStore b) (columns b) (mkColumnMove 0%nat 0 1) in
  column_orders h' updated = [0; 1] /\ length updated = 2%nat.
Proof.
  apply (moveColumn_orders (columnStore Scenario.board) (columns Scenario.board)
           (mkColumnMove 0%nat 0 1)).
  - unfold well_formed. cbn. repeat constructor.
  - eexists. reflexivity.
Defined.

(** *** Sorting by a key *)

Section SortByKeyFacts.
Context {A : Type} (key : A -> Z).

Lemma insert_by_key_perm (x : A) (arr : list A) : insert_by_key key x arr ≡ₚ x :: arr.
Proof.
  induction arr as [|y arr IH]; cbn; [reflexivity|].
  destruct (_ <=? _); [reflexivity|]. rewrite IH. apply Permutation_swap.
Qed.

Lemma sort_by_key_perm (arr : list A) : sort_by_key key arr ≡ₚ arr.
Proof.
  induction arr as [|x arr IH]; cbn; [reflexivity|].
  rewrite insert_by_key_perm. unfold sort_by_key in IH. rewrite IH. reflexivity.
Qed.

Lemma insert_by_key_sorted (x : A) (arr : list A) :
  Sorted Z.le (map key arr) -> Sorted Z.le (map key (insert_by_key key x arr)).
Proof.
  induction arr as [|y arr IH]; cbn; intros Hs.
  - repeat constructor.
  - destruct (key x <=? key y) eqn:Hle; cbn.
    + constructor; [exact Hs|]. constructor. apply Z.leb_le. exact Hle.
    + apply Z.leb_gt in Hle. apply Sorted_inv in Hs as [Hs Hhd].
      constructor; [apply IH; exact Hs|].
      destruct arr as [|z arr]; cbn.
      * constructor. lia.
      * destruct (key x <=? key z); cbn.
        -- constructor. lia.
        -- constructor. apply HdRel_inv in Hhd. exact Hhd.
Qed.

Lemma sort_by_key_sorted (arr : list A) : Sorted Z.le (map key (sort_by_key key arr)).
Proof.
  induction arr as [|x arr IH]; cbn; [constructor|].
  apply insert_by_key_sorted. exact IH.
Qed.

(** Sorting an array that is already in order changes nothing. *)
Lemma insert_by_key_stable (o : Z) (x : A) (arr : list A) :
  List.filter (fun a => key a =? o) (insert_by_key key x arr)
  = List.filter (fun a => key a =? o) (x :: arr).
Proof.
  induction arr as [|y arr IH]; [reflexivity|]. cbn [insert_by_key].
  destruct (key x <=? key y) eqn:Hle; [reflexivity|].
  cbn [List.filter] in *. rewrite IH.
  destruct (key x =? o) eqn:Hx, (key y =? o) eqn:Hy; try reflexivity.
  apply Z.eqb_eq in Hx, Hy. apply Z.leb_gt in Hle. lia.
Qed.

Lemma sort_by_key_stable (o : Z) (arr : list A) :
  List.filter (fun a => key a =? o) (sort_by_key key arr)
  = List.filter (fun a => key a =? o) arr.
Proof.
  induction arr as [|x arr IH]; [reflexivity|].
  change (sort_by_key key (x :: arr)) with (insert_by_key key x (sort_by_key key arr)).
  rewrite insert_by_key_stable. cbn [List.filter]. rewrite IH. reflexivity.
Qed.

Lemma sort_by_key_sorted_id (arr : list A) :
  Sorted Z.le (map key arr) -> sort_by_key key arr = arr.
Proof.
  induction arr as [|x arr IH]; cbn; intros Hs; [reflexivity|].
  apply Sorted_inv in Hs as [Hs Hhd]. unfold sort_by_key in IH. rewrite (IH Hs).
  destruct arr as [|y arr]; cbn; [reflexivity|].
  apply HdRel_inv in Hhd. apply Z.leb_le in Hhd. rewrite Hhd. reflexivity.
Qed.
End SortByKeyFacts.

Lemma Sorted_seqZ (n : nat) (m : Z) : Sorted Z.le (seqZ m (Z.of_nat n)).
Proof.
  revert m. induction n as [|n IH]; intros m; [constructor|].
  rewrite seqZ_cons by lia. replace (Z.pred (Z.of_nat (S n))) with (Z.of_nat n) by lia.
  constructor; [apply IH|].
  destruct n as [|n]; [constructor|].
  rewrite seqZ_cons by lia. constructor. lia.
Qed.

(** The sort of the card listings is this sort, keyed by [order]. *)
Lemma sort_by_order_key (h : list Card.t) (arr : list loc) :
  sort_by_order h arr = sort_by_key (fun c => Card.order (deref h c)) arr.
Proof.
  unfold sort_by_order, sort_by_key. induction arr as [|x arr IH]; cbn; [reflexivity|].
  rewrite IH. generalize (foldr (insert_by_key (fun c => Card.order (deref h c))) [] arr).
  intros l. induction l as [|y l IHl]; cbn; [reflexivity|]. rewrite IHl. reflexivity.
Qed.

(** *** Where a moved column ends up *)

Lemma findIndex_map {A B : Type} (f : A -> B) (p : B -> bool) (arr : list A) :
  findIndex (fun x => p (f x)) arr = findIndex p (map f arr).
Proof.
  induction arr as [|x arr IH]; cbn; [reflexivity|]. rewrite IH. reflexivity.
Qed.

Lemma map_delete {A B : Type} (f : A -> B) (arr : list A) (i : nat) :
  map f (delete i arr) = delete i (map f arr).
Proof.
  revert i. induction arr as [|x arr IH]; intros [|i]; cbn; try reflexivity.
  rewrite IH. reflexivity.
Qed.

Lemma map_splice_insert {A B : Type} (f : A -> B) (arr : list A) (start : Z) (x : A) :
  map f (splice_insert arr start x) = splice_insert (map f arr) start (f x).
Proof.
  unfold splice_insert. rewrite length_map, map_app. cbn [map].
  rewrite <- !List.firstn_map, <- !List.skipn_map. reflexivity.
Qed.

Lemma findIndex_splice_insert {A : Type} (p : A -> bool) (arr : list A) (start : Z) (x : A) :
  (forall y, In y arr -> p y = false) -> p x = true ->
  findIndex p (splice_insert arr start x) = Some (splice_start (length arr) start).
Proof.
  intros Hno Hx. unfold splice_insert.
  pose proof (splice_start_le (length arr) start) as Hk.
  generalize dependent (splice_start (length arr) start). intros k Hk.
  revert k Hk. induction arr as [|y arr IH]; intros k Hk.
  - cbn in Hk. assert (k = 0%nat) as -> by lia. cbn. rewrite Hx. reflexivity.
  - destruct k as [|k]; cbn.
    + rewrite Hx. reflexivity.
    + rewrite (Hno y) by (left; reflexivity).
      rewrite IH; [reflexivity | | cbn in Hk; lia].
      intros z Hz. apply Hno. right. exact Hz.
Qed.

Lemma delete_splice_insert {A : Type} (arr : list A) (start : Z) (x : A) :
  delete (splice_start (length arr) start) (splice_insert arr start x) = arr.
Proof.
  unfold splice_insert.
  pose proof (splice_start_le (length arr) start) as Hk.
  generalize dependent (splice_start (length arr) start). intros k Hk.
  assert (Hlen : length (take k arr) = k) by (rewrite length_take; lia).
  rewrite <- Hlen at 1. rewrite delete_middle. apply take_drop.
Qed.

Lemma take_drop_delete {A : Type} (arr : list A) (i : nat) (x : A) :
  arr !! i = Some x -> take i (delete i arr) ++ x :: drop i (delete i arr) = arr.
Proof.
  revert i. induction arr as [|y arr IH]; intros [|i] Hx; cbn in *; try discriminate.
  - injection Hx as ->. reflexivity.
  - f_equal. apply IH. exact Hx.
Qed.

Lemma splice_insert_delete {A : Type} (arr : list A) (i : nat) (x : A) :
  arr !! i = Some x -> splice_insert (delete i arr) (Z.of_nat i) x = arr.
Proof.
  intros Hx. pose proof (lookup_lt_Some _ _ _ Hx) as Hlt.
  unfold splice_insert, splice_start. rewrite length_delete by eauto.
  destruct (Z.of_nat i <? 0) eqn:Hneg; [apply Z.ltb_lt in Hneg; lia|].
  replace (Z.to_nat (Z.min (Z.of_nat i) (Z.of_nat (length arr - 1)))) with i by lia.
  apply take_drop_delete. exact Hx.
Qed.

Lemma findIndex_NoDup {A : Type} (p : A -> bool) (arr : list A) (i : nat) (x : A) :
  arr !! i = Some x -> p x = true -> (forall y, In y arr -> p y = true -> y = x) ->
  NoDup arr -> findIndex p arr = Some i.
Proof.
  revert i. induction arr as [|y arr IH]; intros i Hx Hp Huniq Hnd; [discriminate|].
  apply NoDup_cons in Hnd as [Hy Hnd]. destruct i as [|i]; cbn in *.
  - injection Hx as ->. rewrite Hp. reflexivity.
  - destruct (p y) eqn:Hpy.
    + exfalso. apply Hy. rewrite (Huniq y (or_introl eq_refl) Hpy).
      apply list_elem_of_lookup. eauto.
    + rewrite (IH i Hx Hp); [reflexivity | | exact Hnd].
      intros z Hz. apply Huniq. right. exact Hz.
Qed.


(** On the sequence of column ids, [moveColumn] removes the id of the
    column it finds and inserts it again at the index [splice] uses. *)
Lemma moveColumn_ids_exact (h : list Column.t) (columns : list loc) (e : ColumnMoveEvent)
    (idx : nat) :
  well_formed h columns ->
  findIndex (fun c => id_eq (Column.id (deref h c)) (Column.id (deref h (column e)))) columns
  = Some idx ->
  let '(h', updated) := moveColumn h columns e in
  column_ids h' updated
  = splice_insert (delete idx (column_ids h columns)) (colToIndex e)
                  (Column.id (deref h (column e)))
  /\ well_formed h' updated
  /\ (exists ext, h' = h ++ ext).
Proof.
  intros Hwf Hf. unfold moveColumn. rewrite Hf.
  destruct (findIndex_Some _ _ _ Hf) as (x & Hx & Hp).
  unfold id_eq in Hp. apply bool_decide_eq_true in Hp.
  rewrite (list_lookup_total_correct _ _ _ Hx).
  assert (Hperm : splice_insert (splice_remove columns idx) (colToIndex e) x ≡ₚ columns).
  { rewrite splice_insert_perm. symmetry. apply delete_Permutation. exact Hx. }
  assert (Hwf2 : well_formed h (splice_insert (splice_remove columns idx) (colToIndex e) x)).
  { unfold well_formed. rewrite Hperm. exact Hwf. }
  pose proof (map_reorder_from_spec _ h 0 Hwf2) as Hspec.
  destruct (map_reorder_from h _ 0) as [h' out].
  destruct Hspec as (Hext & _ & Hwf' & -> & _).
  split; [|split; assumption].
  unfold column_ids, splice_remove. rewrite map_splice_insert, map_delete, Hp. reflexivity.
Qed.



(** With unique column ids, moving a column to any index and then back
    to the index it came from restores the original sequence of column
    ids. *)
Theorem moveColumn_round_trip (h : list Column.t) (columns : list loc)
    (i : nat) (c : loc) (j from1 from2 : Z) :
  well_formed h columns ->
  NoDup (column_ids h columns) ->
  columns !! i = Some c ->
  let '(h1, columns1) := moveColumn h columns (mkColumnMove c from1 j) in
  let '(h2, columns2) := moveColumn h1 columns1 (mkColumnMove c from2 (Z.of_nat i)) in
  column_ids h2 columns2 = column_ids h columns.
Proof.
  intros Hwf Hnd Hc.
  set (idc := Column.id (deref h c)).
  assert (Hidc : column_ids h columns !! i = Some idc).
  { unfold column_ids. apply list_lookup_fmap_Some. exists c. auto. }
  assert (Hvalid : (c < length h)%nat).
  { unfold well_formed in Hwf. rewrite Forall_forall in Hwf. apply Hwf.
    apply list_elem_of_lookup. eauto. }
  assert (Hf1 : findIndex (fun c0 => id_eq (Column.id (deref h c0))
                                          (Column.id (deref h (column (mkColumnMove c from1 j)))))
                          columns = Some i).
  { cbn [column]. fold idc.
    rewrite (findIndex_map (fun c0 => Column.id (deref h c0)) (fun x => id_eq x idc)).
    apply (findIndex_NoDup _ _ i idc Hidc).
    - unfold id_eq. apply bool_decide_eq_true_2. reflexivity.
    - intros y _ Hy. unfold id_eq in Hy. apply bool_decide_eq_true in Hy. exact Hy.
    - exact Hnd. }
  pose proof (moveColumn_ids_exact h columns _ i Hwf Hf1) as H1.
  destruct (moveColumn h columns (mkColumnMove c from1 j)) as [h1 columns1].
  cbn [column colToIndex] in H1. fold idc in H1.
  destruct H1 as (Hids1 & Hwf1 & [ext ->]).
  assert (Hc1 : Column.id (deref (h ++ ext) c) = idc).
  { unfold deref. rewrite lookup_total_app_l by exact Hvalid. reflexivity. }
  set (L := delete i (column_ids h columns)) in *.
  assert (HL : forall y, In y L -> id_eq y idc = false).
  { intros y Hy. unfold id_eq. apply bool_decide_eq_false_2. intros ->.
    rewrite (delete_Permutation _ _ _ Hidc) in Hnd. apply NoDup_cons in Hnd as [Hno _].
    apply Hno. apply list_elem_of_In. exact Hy. }
  assert (Hf2 : findIndex
                  (fun c0 => id_eq (Column.id (deref (h ++ ext) c0))
                                   (Column.id (deref (h ++ ext)
                                                 (column (mkColumnMove c from2 (Z.of_nat i))))))
                  columns1 = Some (splice_start (length L) j)).
  { cbn [column]. rewrite Hc1.
    rewrite (findIndex_map (fun c0 => Column.id (deref (h ++ ext) c0))
                           (fun x => id_eq x idc)).
    fold (column_ids (h ++ ext) columns1). rewrite Hids1.
    apply findIndex_splice_insert; [exact HL|].
    unfold id_eq. apply bool_decide_eq_true_2. reflexivity. }
  pose proof (moveColumn_ids_exact (h ++ ext) columns1 _ _ Hwf1 Hf2) as H2.
  destruct (moveColumn (h ++ ext) columns1 (mkColumnMove c from2 (Z.of_nat i)))
    as [h2 columns2].
  cbn [column colToIndex] in H2. rewrite Hc1 in H2. destruct H2 as (-> & _).
  rewrite Hids1, delete_splice_insert. subst L. apply splice_insert_delete. exact Hidc.
Qed.

Lemma moveColumn_round_trip_witness :
  let b := Scenario.board in
  let '(h1, columns1) := moveColumn (columnStore b) (columns b) (mkColumnMove 0%nat 0 1) in
  let '(h2, columns2) := moveColumn h1 columns1 (mkColumnMove 0%nat 1 0) in
  column_ids h2 columns2 = [Scenario.A; Scenario.B].
Proof.
  apply (moveColumn_round_trip (columnStore Scenario.board) (columns Scenario.board)
           0%nat 0%nat 1 0 1).
  - unfold well_formed. cbn. repeat constructor.
  - repeat constructor; rewrite ?elem_of_cons; rewrite ?elem_of_nil; intuition discriminate.
  - reflexivity.
Defined.

(** *** The sorted listing of a group *)

Lemma length_insert_by_order (h : list Card.t) (x : loc) (arr : list loc) :
  length (insert_by_order h x arr) = S (length arr).
Proof.
  induction arr as [|y arr IH]; cbn; [reflexivity|].
  destruct (_ <=? _); cbn; [reflexivity|]. rewrite IH. reflexivity.
Qed.

Lemma length_sort_by_order (h : list Card.t) (arr : list loc) :
  length (sort_by_order h arr) = length arr.
Proof.
  induction arr as [|x arr IH]; cbn; [reflexivity|].
  rewrite length_insert_by_order. unfold sort_by_order in IH. rewrite IH. reflexivity.
Qed.

Lemma insert_by_order_perm (h : list Card.t) (x : loc) (arr : list loc) :
  insert_by_order h x arr ≡ₚ x :: arr.
Proof.
  induction arr as [|y arr IH]; cbn; [reflexivity|].
  destruct (_ <=? _); [reflexivity|]. rewrite IH. apply Permutation_swap.
Qed.

Lemma sort_by_order_perm (h : list Card.t) (arr : list loc) :
  sort_by_order h arr ≡ₚ arr.
Proof.
  induction arr as [|x arr IH]; cbn; [reflexivity|].
  rewrite insert_by_order_perm. unfold sort_by_order in IH. rewrite IH. reflexivity.
Qed.

Lemma insert_by_order_sorted (h : list Card.t) (x : loc) (arr : list loc) :
  Sorted Z.le (map (fun c => Card.order (deref h c)) arr) ->
  Sorted Z.le (map (fun c => Card.order (deref h c)) (insert_by_order h x arr)).
Proof.
  induction arr as [|y arr IH]; cbn; intros Hs.
  - repeat constructor.
  - destruct (Card.order (deref h x) <=? Card.order (deref h y)) eqn:Hle; cbn.
    + constructor; [exact Hs|]. constructor. apply Z.leb_le. exact Hle.
    + apply Z.leb_gt in Hle. apply Sorted_inv in Hs as [Hs Hhd].
      constructor; [apply IH; exact Hs|].
      destruct arr as [|z arr]; cbn.
      * constructor. lia.
      * destruct (Card.order (deref h x) <=? Card.order (deref h z)); cbn.
        -- constructor. lia.
        -- constructor. apply HdRel_inv in Hhd. exact Hhd.
Qed.

Lemma sort_by_order_sorted (h : list Card.t) (arr : list loc) :
  Sorted Z.le (map (fun c => Card.order (deref h c)) (sort_by_order h arr)).
Proof.
  induction arr as [|x arr IH]; cbn; [constructor|].
  apply insert_by_order_sorted. exact IH.
Qed.

(** In a dense group the sorted listing carries the orders
    [0 .. n-1] in this order. *)
Lemma sorted_group_orders (h : list Card.t) (cards : list loc) (col : KanbanId) (swim : OptId) :
  dense h cards ->
  let listing := sort_by_order h (List.filter (in_group h col swim) cards) in
  map (fun c => Card.order (deref h c)) listing = seqZ 0 (Z.of_nat (length listing)).
Proof.
  intros Hd listing. apply (Sorted_unique Z.le).
  - apply sort_by_order_sorted.
  - apply Sorted_seqZ.
  - subst listing. rewrite length_sort_by_order.
    rewrite (Permutation_map _ (sort_by_order_perm h _)).
    specialize (Hd col swim). unfold group_orders in Hd. rewrite length_map in Hd. exact Hd.
Qed.

Lemma findIndex_exists {A : Type} (p : A -> bool) (arr : list A) (x : A) :
  In x arr -> p x = true -> exists k, findIndex p arr = Some k.
Proof.
  induction arr as [|y arr IH]; cbn; [tauto|]. intros Hin Hp.
  destruct (p y) eqn:Hy; [eexists; reflexivity|].
  destruct Hin as [->|Hin]; [congruence|].
  destruct (IH Hin Hp) as [k ->]. eexists; reflexivity.
Qed.

Lemma unique_id (h : list Card.t) (cards : list loc) (x y : loc) :
  NoDup (card_ids h cards) -> In x cards -> In y cards ->
  Card.id (deref h x) = Card.id (deref h y) -> x = y.
Proof.
  unfold card_ids. induction cards as [|z cards IH]; cbn; [tauto|].
  intros Hnd Hx Hy Heq. apply NoDup_cons in Hnd as [Hz Hnd].
  assert (Hmem : forall w, In w cards -> Card.id (deref h w) = Card.id (deref h z) -> False).
  { intros w Hw Hid. apply Hz. rewrite <- Hid. apply list_elem_of_In.
    apply (List.in_map (fun c => Card.id (deref h c))). exact Hw. }
  destruct Hx as [<-|Hx], Hy as [<-|Hy]; auto.
  - exfalso. apply (Hmem y Hy). congruence.
  - exfalso. apply (Hmem x Hx). congruence.
Qed.

Lemma getCardById_unique (h : list Card.t) (cards : list loc) (c : loc) :
  NoDup (card_ids h cards) -> In c cards ->
  getCardById h cards (Card.id (deref h c)) = Some c.
Proof.
  intros Hnd Hin. unfold getCardById.
  destruct (List.find _ cards) as [x|] eqn:Hf.
  - apply List.find_some in Hf as [Hx Hid]. unfold id_eq in Hid.
    apply bool_decide_eq_true in Hid. f_equal. eapply unique_id; eassumption.
  - pose proof (List.find_none _ _ Hf c Hin) as Hno. cbn in Hno.
    unfold id_eq in Hno. apply bool_decide_eq_false in Hno. congruence.
Qed.

(** With a swimlane given, the listing of [getCardsForColumn] is the
    sorted group. *)
Lemma getCardsForColumn_group (h : list Card.t) (cards : list loc)
    (col : KanbanId) (swim : OptId) :
  swim <> Undefined ->
  getCardsForColumn h cards col swim
  = sort_by_order h (List.filter (in_group h col swim) cards).
Proof.
  intros Hne. unfold getCardsForColumn. f_equal. apply List.filter_ext. intros c.
  unfold in_group, strict_eq at 1. rewrite bool_decide_eq_false_2 by exact Hne. reflexivity.
Qed.

(** On a dense board with unique ids, a card is found in the listing of
    its group at the index its [order] says. *)
Lemma listing_index_is_order (h : list Card.t) (cards : list loc) (c : loc)
    (col : KanbanId) (swim : OptId) :
  swim <> Undefined ->
  NoDup (card_ids h cards) -> dense h cards ->
  In c cards -> in_group h col swim c = true ->
  exists k,
    findIndex (fun x => id_eq (Card.id (deref h x)) (Card.id (deref h c)))
              (getCardsForColumn h cards col swim) = Some k
    /\ Z.of_nat k = Card.order (deref h c).
Proof.
  intros Hne Hnd Hd Hin Hg. rewrite getCardsForColumn_group by exact Hne.
  set (listing := sort_by_order h (List.filter (in_group h col swim) cards)).
  assert (Hsub : forall x, In x listing -> In x cards).
  { intros x Hx. apply list_elem_of_In in Hx. subst listing.
    rewrite sort_by_order_perm in Hx. apply list_elem_of_In, List.filter_In in Hx. tauto. }
  assert (Hc : In c listing).
  { apply list_elem_of_In. subst listing. rewrite sort_by_order_perm.
    apply list_elem_of_In, List.filter_In. auto. }
  destruct (findIndex_exists (fun x => id_eq (Card.id (deref h x)) (Card.id (deref h c)))
              listing c Hc) as [k Hk].
  { unfold id_eq. apply bool_decide_eq_true_2. reflexivity. }
  exists k. split; [exact Hk|].
  destruct (findIndex_Some _ _ _ Hk) as (x & Hx & Hid).
  unfold id_eq in Hid. apply bool_decide_eq_true in Hid.
  assert (x = c) as ->.
  { eapply unique_id; try eassumption. apply Hsub.
    apply list_elem_of_In, list_elem_of_lookup. eauto. }
  pose proof (sorted_group_orders h cards col swim Hd) as Hord. cbv zeta in Hord.
  fold listing in Hord.
  assert (Hlk : map (fun c0 => Card.order (deref h c0)) listing !! k
                = Some (Card.order (deref h c))).
  { rewrite list_lookup_fmap, Hx. reflexivity. }
  rewrite Hord in Hlk. apply lookup_seqZ in Hlk as [-> _]. lia.
Qed.

(** *** Listings and what the column component makes of them *)

(** The listing of a column holds exactly the cards of that column (of
    that swimlane too, when one is given), as often as the collection
    holds them, in non-decreasing [order]; the column component, which
    sorts the listing it is given once more, shows it as it is. *)
Theorem getCardsForColumn_listing (h : list Card.t) (cards : list loc)
    (columnId : KanbanId) (swimlaneId : OptId) :
  let listing := getCardsForColumn h cards columnId swimlaneId in
  listing
  ≡ₚ List.filter
       (fun c => id_eq (Card.columnId (deref h c)) columnId
                 && (strict_eq swimlaneId Undefined
                     || strict_eq (Card.swimlaneId (deref h c)) swimlaneId))
       cards
  /\ Sorted Z.le (map (fun c => Card.order (deref h c)) listing)
  /\ (forall c, In c listing <->
                In c cards
                /\ Card.columnId (deref h c) = columnId
                /\ (swimlaneId = Undefined \/ Card.swimlaneId (deref h c) = swimlaneId))
  /\ columnSortedCards h listing = listing.
Proof.
  cbv zeta. unfold columnSortedCards, getCardsForColumn.
  assert (Hfilter : forall c,
             (id_eq (Card.columnId (deref h c)) columnId
              && (if negb (strict_eq swimlaneId Undefined)
                  then strict_eq (Card.swimlaneId (deref h c)) swimlaneId else true))
             = (id_eq (Card.columnId (deref h c)) columnId
                && (strict_eq swimlaneId Undefined
                    || strict_eq (Card.swimlaneId (deref h c)) swimlaneId))).
  { intros c. destruct (strict_eq swimlaneId Undefined); reflexivity. }
  rewrite (List.filter_ext _ _ Hfilter).
  split; [apply sort_by_order_perm|]. split; [apply sort_by_order_sorted|]. split.
  - intros c. rewrite <- list_elem_of_In, sort_by_order_perm, list_elem_of_In.
    rewrite List.filter_In. unfold id_eq, strict_eq.
    rewrite andb_true_iff, orb_true_iff, !bool_decide_eq_true. reflexivity.
  - rewrite (sort_by_order_key h (sort_by_order h _)).
    apply sort_by_key_sorted_id. apply sort_by_order_sorted.
Qed.

(** Without swimlanes the over-limit flag of a column component, fed
    with the board's listing for that column, is the answer of
    [isColumnOverLimit] for the column's id. *)
Theorem columnIsOverLimit_agrees (hc : list Column.t) (columns : list loc)
    (h : list Card.t) (cards : list loc) (col : loc) :
  getColumnById hc columns (Column.id (deref hc col)) = Some col ->
  columnIsOverLimit (deref hc col)
                    (getCardsForColumn h cards (Column.id (deref hc col)) Undefined)
  = isColumnOverLimit hc columns h cards (Column.id (deref hc col)).
Proof.
  intros Hfind. unfold columnIsOverLimit, isColumnOverLimit, columnCardCount, getCardCount.
  rewrite Hfind. reflexivity.
Qed.

Lemma columnIsOverLimit_agrees_witness :
  let b := Scenario.zeroLimitBoard in
  columnIsOverLimit (deref (columnStore b) 0%nat)
                    (getCardsForColumn (cardStore b) (cards b) Scenario.A Undefined)
  = isColumnOverLimit (columnStore b) (columns b) (cardStore b) (cards b) Scenario.A.
Proof.
  apply (columnIsOverLimit_agrees (columnStore Scenario.zeroLimitBoard)
           (columns Scenario.zeroLimitBoard) (cardStore Scenario.zeroLimitBoard)
           (cards Scenario.zeroLimitBoard) 0%nat).
  reflexivity.
Defined.

(** *** Effective swimlanes *)

Lemma existsb_strict_eq (x : OptId) (seen : list OptId) :
  existsb (strict_eq x) seen = true <-> In x seen.
Proof.
  rewrite List.existsb_exists. unfold strict_eq. split.
  - intros (y & Hy & Heq). apply bool_decide_eq_true in Heq. subst y. exact Hy.
  - intros Hin. exists x. split; [exact Hin | apply bool_decide_eq_true_2; reflexivity].
Qed.

Lemma in_distinct_from (ids seen : list OptId) (v : OptId) :
  In v (distinct_from seen ids) <-> In v ids /\ ~ In v seen.
Proof.
  revert seen. induction ids as [|x ids IH]; intros seen; cbn; [tauto|].
  destruct (existsb (strict_eq x) seen) eqn:Hex.
  - apply existsb_strict_eq in Hex. rewrite IH. split.
    + tauto.
    + intros [[->|Hin] Hno]; [contradiction | tauto].
  - assert (Hno : ~ In x seen).
    { intros Hin. apply existsb_strict_eq in Hin. congruence. }
    cbn. rewrite IH. cbn. split.
    + intros [->|[Hin Hns]]; [tauto|]. split; [tauto|]. intros Hs. apply Hns. tauto.
    + intros [[->|Hin] Hns]; [tauto|].
      destruct (decide (x = v)) as [->|Hne]; [tauto|]. right. split; [exact Hin|].
      intros [Heq|Hs]; [congruence | contradiction].
Qed.

Lemma distinct_from_NoDup (ids seen : list OptId) : NoDup (distinct_from seen ids).
Proof.
  revert seen. induction ids as [|x ids IH]; intros seen; cbn; [constructor|].
  destruct (existsb (strict_eq x) seen); [apply IH|].
  apply NoDup_cons. split; [|apply IH].
  rewrite list_elem_of_In, in_distinct_from. cbn. tauto.
Qed.

Lemma distinct_from_sublist (ids seen : list OptId) : distinct_from seen ids `sublist_of` ids.
Proof.
  revert seen. induction ids as [|x ids IH]; intros seen; cbn; [constructor|].
  destruct (existsb (strict_eq x) seen).
  - apply sublist_cons. apply IH.
  - apply sublist_skip. apply IH.
Qed.

Lemma imap_effective_ids (f : OptId -> string) (ids : list OptId) (i : nat) :
  map effId (imap (fun index v => mkEffective v (f v) (Z.of_nat (i + index))) ids) = ids
  /\ map effOrder (imap (fun index v => mkEffective v (f v) (Z.of_nat (i + index))) ids)
     = seqZ (Z.of_nat i) (Z.of_nat (length ids)).
Proof.
  revert i. induction ids as [|v ids IH]; intros i; [split; reflexivity|].
  cbn [imap map length]. rewrite (seqZ_cons (Z.of_nat i)) by lia.
  destruct (IH (S i)) as [Hid Hord].
  assert (Hext : imap ((fun index v0 => mkEffective v0 (f v0) (Z.of_nat (i + index))) ∘ S) ids
                 = imap (fun index v0 => mkEffective v0 (f v0) (Z.of_nat (S i + index))) ids).
  { apply imap_ext. intros k x _. cbn. do 2 f_equal. lia. }
  rewrite Hext, Hid, Hord. replace (i + 0)%nat with i by lia.
  split; [reflexivity|]. f_equal. f_equal; lia.
Qed.

Lemma StronglySorted_map_S (js : list nat) :
  StronglySorted lt js -> StronglySorted lt (map S js).
Proof.
  induction 1 as [|j js _ IH Hall]; cbn; constructor; [exact IH|].
  rewrite List.Forall_forall in *. intros k Hk. apply List.in_map_iff in Hk as (k' & <- & Hk').
  apply (proj1 (Nat.succ_lt_mono j k')). apply Hall. exact Hk'.
Qed.

Lemma first_index_shift (h : list Card.t) (c : loc) (cards : list loc)
    (r : list OptId) (js : list nat) :
  (forall v, In v r -> strict_eq (Card.swimlaneId (deref h c)) v = false) ->
  map (fun v => findIndex (fun c' => strict_eq (Card.swimlaneId (deref h c')) v) cards) r
  = map Some js ->
  map (fun v => findIndex (fun c' => strict_eq (Card.swimlaneId (deref h c')) v) (c :: cards)) r
  = map Some (map S js).
Proof.
  revert js. induction r as [|v r IH]; intros [|j js] Hne Hmap; cbn in Hmap;
    try discriminate Hmap; [reflexivity|].
  injection Hmap as Hv Hr. cbn [map findIndex].
  rewrite (Hne v) by (left; reflexivity). rewrite Hv. cbn. f_equal.
  apply IH; [|exact Hr]. intros w Hw. apply Hne. right. exact Hw.
Qed.

(** The values [distinct_from] keeps stand in the order of the cards on
    which they first occur. *)
Lemma distinct_from_first_index (h : list Card.t) (cards : list loc) (seen : list OptId) :
  exists firsts,
    map (fun v => findIndex (fun c => strict_eq (Card.swimlaneId (deref h c)) v) cards)
        (distinct_from seen
           (List.filter (fun v => negb (strict_eq v Undefined))
                        (map (fun c => Card.swimlaneId (deref h c)) cards)))
    = map Some firsts
    /\ StronglySorted lt firsts.
Proof.
  revert seen. induction cards as [|c cards IH]; intros seen.
  - exists []. split; [reflexivity | constructor].
  - cbn [map List.filter]. set (x := Card.swimlaneId (deref h c)).
    destruct (negb (strict_eq x Undefined)) eqn:Hnu.
    + cbn [distinct_from]. destruct (existsb (strict_eq x) seen) eqn:Hex.
      * destruct (IH seen) as (js & Hjs & Hsorted). exists (map S js).
        split; [|apply StronglySorted_map_S; exact Hsorted].
        apply first_index_shift; [|exact Hjs]. intros v Hv.
        apply in_distinct_from in Hv as [_ Hv]. apply existsb_strict_eq in Hex.
        unfold strict_eq. apply bool_decide_eq_false_2. fold x. congruence.
      * destruct (IH (x :: seen)) as (js & Hjs & Hsorted). exists (0%nat :: map S js).
        split.
        -- cbn [map findIndex]. fold x. unfold strict_eq at 1.
           rewrite bool_decide_eq_true_2 by reflexivity. f_equal.
           apply first_index_shift; [|exact Hjs]. intros v Hv.
           apply in_distinct_from in Hv as [_ Hv].
           unfold strict_eq. apply bool_decide_eq_false_2. fold x.
           intros ->. apply Hv. left. reflexivity.
        -- constructor; [apply StronglySorted_map_S; exact Hsorted|].
           rewrite List.Forall_forall. intros k Hk.
           apply List.in_map_iff in Hk as (k' & <- & _). lia.
    + destruct (IH seen) as (js & Hjs & Hsorted). exists (map S js).
      split; [|apply StronglySorted_map_S; exact Hsorted].
      apply first_index_shift; [|exact Hjs]. intros v Hv.
      apply in_distinct_from in Hv as [Hv _]. apply List.filter_In in Hv as [_ Hv].
      apply negb_false_iff in Hnu. unfold strict_eq in *.
      apply bool_decide_eq_true in Hnu. apply negb_true_iff, bool_decide_eq_false in Hv.
      apply bool_decide_eq_false_2. fold x. congruence.
Qed.

(** Without swimlanes of the host, the effective swimlanes are generated
    from the cards: one for every [swimlaneId] other than [undefined]
    that a card carries, none twice, numbered [0 .. n-1], and in the order
    in which the ids first appear: the positions of the cards on which the
    ids first occur ([firsts]) increase strictly along the list. *)
Theorem effectiveSwimlanes_generated (h : list Card.t) (cards : list loc) :
  let generated := effectiveSwimlanes h cards [] in
  NoDup (map effId generated)
  /\ map effOrder generated = seqZ 0 (Z.of_nat (length generated))
  /\ map effId generated `sublist_of` map (fun c => Card.swimlaneId (deref h c)) cards
  /\ (forall v, In v (map effId generated) <->
                v <> Undefined /\ exists c, In c cards /\ Card.swimlaneId (deref h c) = v)
  /\ (exists firsts,
        map (fun v => findIndex (fun c => strict_eq (Card.swimlaneId (deref h c)) v) cards)
            (map effId generated)
        = map Some firsts
        /\ StronglySorted lt firsts).
Proof.
  cbv zeta. unfold effectiveSwimlanes. cbn [length Nat.ltb Nat.leb].
  pose proof (distinct_from_first_index h cards []) as Hfirst.
  set (ids := distinct_from [] _) in *.
  destruct (imap_effective_ids (fun v => String.append "Swimlane " (template_id v)) ids 0)
    as [Hid Hord].
  cbn in Hid, Hord. rewrite Hid, Hord, length_imap.
  split; [apply distinct_from_NoDup|]. split; [reflexivity|]. split; [|split].
  - subst ids. etransitivity; [apply distinct_from_sublist|].
    clear. induction (map _ cards) as [|x l IH]; cbn; [constructor|].
    destruct (negb (strict_eq x Undefined)); [apply sublist_skip | apply sublist_cons]; exact IH.
  - intros v. subst ids. rewrite in_distinct_from, List.filter_In, List.in_map_iff.
    unfold strict_eq. rewrite negb_true_iff, bool_decide_eq_false. cbn. split.
    + intros [[(c & Hc & Hin) Hne] _]. eauto.
    + intros [Hne (c & Hin & Hc)]. split; [|tauto]. split; [eauto | exact Hne].
  - exact Hfirst.
Qed.

Lemma filter_map_comm {A B : Type} (f : A -> B) (p : B -> bool) (arr : list A) :
  List.filter p (map f arr) = map f (List.filter (fun a => p (f a)) arr).
Proof.
  induction arr as [|a arr IH]; cbn; [reflexivity|].
  destruct (p (f a)); cbn; rewrite IH; reflexivity.
Qed.

(** With swimlanes of the host, the effective swimlanes are those,
    whatever the cards carry: the same records (id, title and order of
    each swimlane together), rearranged into non-decreasing [order], with
    swimlanes of equal [order] left in the sequence in which they were
    supplied; each of them can be looked up by its id. *)
Theorem effectiveSwimlanes_explicit (h : list Card.t) (cards : list loc)
    (lanes : list Swimlane.t) :
  lanes <> [] ->
  let effective := effectiveSwimlanes h cards lanes in
  let supplied :=
    map (fun s => mkEffective (Id (Swimlane.id s)) (Swimlane.title s) (Swimlane.order s))
        lanes in
  effective ≡ₚ supplied
  /\ Sorted Z.le (map effOrder effective)
  /\ (forall o, List.filter (fun v => effOrder v =? o) effective
               = List.filter (fun v => effOrder v =? o) supplied)
  /\ map effId effective ≡ₚ map (fun s => Id (Swimlane.id s)) lanes
  /\ map effTitle effective ≡ₚ map Swimlane.title lanes
  /\ (forall v, In v effective ->
        exists i, effId v = Id i /\ is_Some (getSwimlaneById lanes i)).
Proof.
  intros Hne. cbv zeta. unfold effectiveSwimlanes.
  destruct lanes as [|s0 lanes0] eqn:Hl; [contradiction|]. rewrite <- Hl. clear Hne.
  assert (Hpos : (0 <? length lanes)%nat = true) by (subst lanes; reflexivity).
  rewrite Hpos. unfold sortedSwimlanes.
  pose proof (sort_by_key_perm Swimlane.order lanes) as Hperm.
  split; [apply Permutation_map; exact Hperm|].
  split; [rewrite map_map; cbn [effOrder]; apply sort_by_key_sorted|].
  split.
  { intros o. rewrite !filter_map_comm. cbn [effOrder].
    rewrite sort_by_key_stable. reflexivity. }
  rewrite !map_map. cbn [effId effTitle].
  split; [apply Permutation_map; exact Hperm|].
  split; [apply Permutation_map; exact Hperm|].
  intros v Hv. apply List.in_map_iff in Hv as (s & <- & Hs).
  exists (Swimlane.id s). split; [reflexivity|].
  apply list_elem_of_In in Hs. rewrite Hperm in Hs. apply list_elem_of_In in Hs.
  unfold getSwimlaneById.
  destruct (List.find _ lanes) as [l|] eqn:Hf; [eexists; reflexivity|].
  pose proof (List.find_none _ _ Hf s Hs) as Hno. cbn in Hno.
  unfold id_eq in Hno. rewrite bool_decide_eq_true_2 in Hno by reflexivity. discriminate Hno.
Qed.

Lemma effectiveSwimlanes_explicit_witness :
  let lanes := [Swimlane.mk (IdStr "low") "Low" 1; Swimlane.mk (IdStr "high") "High" 0;
                Swimlane.mk (IdStr "mid") "Mid" 1] in
  let effective := effectiveSwimlanes (cardStore Scenario.board) (cards Scenario.board) lanes in
  let supplied :=
    map (fun s => mkEffective (Id (Swimlane.id s)) (Swimlane.title s) (Swimlane.order s))
        lanes in
  effective ≡ₚ supplied
  /\ Sorted Z.le (map effOrder effective)
  /\ (forall o, List.filter (fun v => effOrder v =? o) effective
               = List.filter (fun v => effOrder v =? o) supplied)
  /\ map effId effective ≡ₚ map (fun s => Id (Swimlane.id s)) lanes
  /\ map effTitle effective ≡ₚ map Swimlane.title lanes
  /\ (forall v, In v effective ->
        exists i, effId v = Id i /\ is_Some (getSwimlaneById lanes i)).
Proof.
  apply (effectiveSwimlanes_explicit (cardStore Scenario.board) (cards Scenario.board)
           [Swimlane.mk (IdStr "low") "Low" 1; Swimlane.mk (IdStr "high") "High" 0;
            Swimlane.mk (IdStr "mid") "Mid" 1]).
  intros H. discriminate H.
Defined.

(** The board takes swimlanes to be present exactly when the list of
    effective swimlanes is not empty. *)
Theorem effectiveSwimlanes_nonempty (b : Board) :
  effectiveSwimlanesNonEmpty b = true
  <-> effectiveSwimlanes (cardStore b) (cards b) (swimlanes b) <> [].
Proof.
  unfold effectiveSwimlanesNonEmpty, effectiveSwimlanes.
  destruct (swimlanes b) as [|s lanes] eqn:Hl.
  - cbn [length Nat.ltb Nat.leb]. rewrite bool_decide_eq_true_2 by reflexivity. cbn [negb orb].
    rewrite List.existsb_exists. split.
    + intros (c & Hin & Hc) Hnil.
      apply (f_equal (map effId)) in Hnil.
      destruct (imap_effective_ids (fun v => String.append "Swimlane " (template_id v))
                  (distinct_from []
                     (List.filter (fun v => negb (strict_eq v Undefined))
                        (map (fun c0 => Card.swimlaneId (deref (cardStore b) c0)) (cards b))))
                  0) as [Hid _].
      cbn in Hid, Hnil. rewrite Hid in Hnil.
      assert (Hmem : In (Card.swimlaneId (deref (cardStore b) c))
                        (distinct_from []
                           (List.filter (fun v => negb (strict_eq v Undefined))
                              (map (fun c0 => Card.swimlaneId (deref (cardStore b) c0))
                                   (cards b))))).
      { apply in_distinct_from. split; [|intros []]. apply List.filter_In. split; [|exact Hc].
        apply List.in_map_iff. eauto. }
      rewrite Hnil in Hmem. destruct Hmem.
    + intros Hne.
      destruct (List.filter (fun v => negb (strict_eq v Undefined))
                  (map (fun c0 => Card.swimlaneId (deref (cardStore b) c0)) (cards b)))
        as [|v vs] eqn:Hf; [exfalso; apply Hne; reflexivity|].
      assert (Hv : In v (List.filter (fun v => negb (strict_eq v Undefined))
                           (map (fun c0 => Card.swimlaneId (deref (cardStore b) c0))
                                (cards b)))) by (rewrite Hf; left; reflexivity).
      apply List.filter_In in Hv as [Hv Hu]. apply List.in_map_iff in Hv as (c & <- & Hin).
      exists c. auto.
  - cbn [length Nat.ltb Nat.leb]. rewrite bool_decide_eq_false_2 by discriminate.
    cbn [negb orb]. split; [|reflexivity]. intros _ Hnil.
    apply (f_equal (@length _)) in Hnil. rewrite length_map in Hnil.
    unfold sortedSwimlanes in Hnil.
    rewrite (Permutation_length (sort_by_key_perm Swimlane.order (s :: lanes))) in Hnil.
    discriminate Hnil.
Qed.

(** *** [updateCard] and [updateColumn] *)

Lemma updateCard_spec (cards : list loc) (h : list Card.t) (cardId : KanbanId)
    (changes : CardChanges) :
  well_formed h cards ->
  let '(h', out) := updateCard h cards cardId changes in
  (exists ext, h' = h ++ ext)
  /\ well_formed h' out
  /\ length out = length cards
  /\ snapshot h' out
     = map (fun c => if id_eq (Card.id c) cardId then spread_card c changes else c)
           (snapshot h cards)
  /\ (forall k l, cards !! k = Some l ->
        exists l', out !! k = Some l'
                   /\ (if id_eq (Card.id (deref h l)) cardId
                       then (length h <= l')%nat else l' = l)).
Proof.
  revert h. induction cards as [|l cards IH]; intros h Hwf.
  - cbn. split; [exists []; rewrite app_nil_r; reflexivity|].
    split; [constructor|]. split; [reflexivity|]. split; [reflexivity|].
    intros k l Hk. discriminate Hk.
  - apply Forall_cons in Hwf as [Hl Hwf]. cbn [updateCard].
    destruct (id_eq (Card.id (deref h l)) cardId) eqn:Hid; cbn [alloc].
    + set (v := spread_card (deref h l) changes).
      assert (Hwf1 : well_formed (h ++ [v]) cards).
      { unfold well_formed. rewrite length_app. cbn.
        eapply Forall_impl; [exact Hwf|]. cbn. intros; lia. }
      specialize (IH (h ++ [v]) Hwf1).
      destruct (updateCard (h ++ [v]) cards cardId changes) as [h2 rest].
      destruct IH as ([ext ->] & Hwf2 & Hlen & Hsnap & Hidx).
      assert (Hfresh : deref ((h ++ [v]) ++ ext) (length h) = v).
      { unfold deref. rewrite <- app_assoc. apply list_lookup_total_middle. reflexivity. }
      assert (Hold : forall c, In c cards -> deref (h ++ [v]) c = deref h c).
      { intros c Hc. apply deref_alloc_old. unfold well_formed in Hwf.
        rewrite Forall_forall in Hwf. apply Hwf. apply list_elem_of_In. exact Hc. }
      split; [exists ([v] ++ ext); rewrite app_assoc; reflexivity|].
      split; [apply Forall_cons; split; [rewrite !length_app; cbn; lia | exact Hwf2]|].
      split; [cbn; rewrite Hlen; reflexivity|]. split.
      * unfold snapshot in *. cbn [map]. rewrite Hfresh, Hid, Hsnap. f_equal.
        rewrite !map_map. apply map_ext_in. intros c Hc. cbn. rewrite (Hold c Hc). reflexivity.
      * intros [|k] l0 Hk; cbn in Hk.
        -- injection Hk as <-. exists (length h). rewrite Hid. split; [reflexivity | lia].
        -- destruct (Hidx k l0 Hk) as (l' & Hl' & Hcase). exists l'. split; [exact Hl'|].
           rewrite (Hold l0) in Hcase by (apply list_elem_of_In, list_elem_of_lookup; eauto).
           destruct (id_eq (Card.id (deref h l0)) cardId); [|exact Hcase].
           rewrite length_app in Hcase. cbn in Hcase. lia.
    + specialize (IH h Hwf).
      destruct (updateCard h cards cardId changes) as [h2 rest].
      destruct IH as ([ext ->] & Hwf2 & Hlen & Hsnap & Hidx).
      split; [exists ext; reflexivity|].
      split; [apply Forall_cons; split; [rewrite length_app; lia | exact Hwf2]|].
      split; [cbn; rewrite Hlen; reflexivity|]. split.
      * unfold snapshot in *. cbn [map]. rewrite Hsnap.
        unfold deref at 1. rewrite lookup_total_app_l by exact Hl.
        fold (deref h l). rewrite Hid. reflexivity.
      * intros [|k] l0 Hk; cbn in Hk.
        -- injection Hk as <-. exists l. rewrite Hid. split; reflexivity.
        -- exact (Hidx k l0 Hk).
Qed.

(** Seen through the returned array, the cards are those of the input
    in the same positions, with the changes merged into every card that
    has the given id. *)
Theorem updateCard_values (h : list Card.t) (cards : list loc) (cardId : KanbanId)
    (changes : CardChanges) :
  well_formed h cards ->
  let '(h', updated) := updateCard h cards cardId changes in
  snapshot h' updated
  = map (fun c => if id_eq (Card.id c) cardId then spread_card c changes else c)
        (snapshot h cards)
  /\ length updated = length cards.
Proof.
  intros Hwf. pose proof (updateCard_spec cards h cardId changes Hwf) as Hspec.
  destruct (updateCard h cards cardId changes) as [h' out]. tauto.
Qed.

Lemma updateCard_values_witness :
  let b := Scenario.board in
  let '(h', updated) :=
    updateCard (cardStore b) (cards b) (IdStr "c2")
               (mkCardChanges None None (Some "renamed"%string) None None None) in
  snapshot h' updated
  = [Scenario.c1; Card.mk (IdStr "c2") Scenario.A "renamed" 1 Undefined None; Scenario.c3]
  /\ length updated = 3%nat.
Proof.
  apply (updateCard_values (cardStore Scenario.board) (cards Scenario.board) (IdStr "c2")
           (mkCardChanges None None (Some "renamed"%string) None None None)).
  unfold well_formed. cbn. repeat constructor.
Defined.

(** [updateCard] writes to no object of the input: every existing
    object keeps its fields, a card with another id stays in the array as
    the same object, and a card with the given id is replaced by a new
    object. *)
Theorem updateCard_no_mutation (h : list Card.t) (cards : list loc) (cardId : KanbanId)
    (changes : CardChanges) :
  well_formed h cards ->
  let '(h', updated) := updateCard h cards cardId changes in
  (forall l, (l < length h)%nat -> deref h' l = deref h l)
  /\ (forall k l, cards !! k = Some l ->
        exists l', updated !! k = Some l'
                   /\ (if id_eq (Card.id (deref h l)) cardId
                       then (length h <= l')%nat else l' = l)).
Proof.
  intros Hwf. pose proof (updateCard_spec cards h cardId changes Hwf) as Hspec.
  destruct (updateCard h cards cardId changes) as [h' out].
  destruct Hspec as ([ext ->] & _ & _ & _ & Hidx). split; [|exact Hidx].
  intros l Hl. unfold deref. apply lookup_total_app_l. exact Hl.
Qed.

Lemma updateCard_no_mutation_witness :
  let b := Scenario.board in
  let '(h', updated) :=
    updateCard (cardStore b) (cards b) (IdStr "c2")
               (mkCardChanges None None None (Some 5) None None) in
  (forall l, (l < 3)%nat -> deref h' l = deref (cardStore b) l)
  /\ (forall k l, cards b !! k = Some l ->
        exists l', updated !! k = Some l'
                   /\ (if id_eq (Card.id (deref (cardStore b) l)) (IdStr "c2")
                       then (3 <= l')%nat else l' = l)).
Proof.
  apply (updateCard_no_mutation (cardStore Scenario.board) (cards Scenario.board) (IdStr "c2")
           (mkCardChanges None None None (Some 5) None None)).
  unfold well_formed. cbn. repeat constructor.
Defined.

(** For an id that no card has, [updateCard] returns the array and the
    store as they are. *)
Theorem updateCard_unknown_id (h : list Card.t) (cards : list loc) (cardId : KanbanId)
    (changes : CardChanges) :
  getCardById h cards cardId = None ->
  updateCard h cards cardId changes = (h, cards).
Proof.
  unfold getCardById. induction cards as [|l cards IH]; cbn; [reflexivity|].
  destruct (id_eq (Card.id (deref h l)) cardId); [discriminate|].
  intros Hn. rewrite (IH Hn). reflexivity.
Qed.

Lemma updateCard_unknown_id_witness :
  let b := Scenario.board in
  updateCard (cardStore b) (cards b) (IdStr "c9")
             (mkCardChanges None (Some Scenario.B) None None None None)
  = (cardStore b, cards b).
Proof.
  apply (updateCard_unknown_id (cardStore Scenario.board) (cards Scenario.board)).
  reflexivity.
Defined.

Lemma updateCard_ext (cards : list loc) (h : list Card.t) (cardId : KanbanId)
    (changes : CardChanges) :
  exists ext, fst (updateCard h cards cardId changes) = h ++ ext.
Proof.
  revert h. induction cards as [|l cards IH]; intros h; cbn.
  - exists []. rewrite app_nil_r. reflexivity.
  - destruct (id_eq (Card.id (deref h l)) cardId); cbn [alloc].
    + destruct (IH (h ++ [spread_card (deref h l) changes])) as [ext Hext].
      destruct (updateCard _ cards cardId changes) as [h2 rest]. cbn in *.
      exists ([spread_card (deref h l) changes] ++ ext). rewrite Hext, app_assoc. reflexivity.
    + destruct (IH h) as [ext Hext].
      destruct (updateCard h cards cardId changes) as [h2 rest]. cbn in *. eauto.
Qed.

(** When the changes leave the id alone, looking the id up after
    [updateCard] yields the card that was found before, with the changes
    merged in. *)
Theorem updateCard_then_getCardById (h : list Card.t) (cards : list loc) (cardId : KanbanId)
    (changes : CardChanges) (c : loc) :
  well_formed h cards ->
  chId changes = None ->
  getCardById h cards cardId = Some c ->
  let '(h', updated) := updateCard h cards cardId changes in
  exists c', getCardById h' updated cardId = Some c'
             /\ deref h' c' = spread_card (deref h c) changes.
Proof.
  intros Hwf Hch. revert h Hwf. unfold getCardById.
  induction cards as [|l cards IH]; intros h Hwf Hfind; cbn in Hfind; [discriminate|].
  apply Forall_cons in Hwf as [Hl Hwf]. cbn [updateCard].
  destruct (id_eq (Card.id (deref h l)) cardId) eqn:Hid; cbn [alloc].
  - injection Hfind as <-.
    set (v := spread_card (deref h l) changes).
    destruct (updateCard_ext cards (h ++ [v]) cardId changes) as [ext Hext].
    destruct (updateCard (h ++ [v]) cards cardId changes) as [h2 rest]. cbn in Hext. subst h2.
    assert (Hfresh : deref ((h ++ [v]) ++ ext) (length h) = v).
    { unfold deref. rewrite <- app_assoc. apply list_lookup_total_middle. reflexivity. }
    exists (length h). cbn [List.find]. rewrite Hfresh.
    assert (Hv : id_eq (Card.id v) cardId = true).
    { subst v. unfold spread_card. cbn. rewrite Hch. cbn. exact Hid. }
    rewrite Hv. split; reflexivity.
  - destruct (updateCard_ext cards h cardId changes) as [ext Hext].
    specialize (IH h Hwf Hfind).
    destruct (updateCard h cards cardId changes) as [h2 rest]. cbn in Hext. subst h2.
    destruct IH as (c' & Hc' & Hd). exists c'. cbn [List.find].
    assert (Hsame : deref (h ++ ext) l = deref h l)
      by (unfold deref; apply lookup_total_app_l; exact Hl).
    rewrite Hsame, Hid. split; assumption.
Qed.

Lemma updateCard_then_getCardById_witness :
  let b := Scenario.board in
  let ch := mkCardChanges None (Some Scenario.B) None (Some 1) None None in
  let '(h', updated) := updateCard (cardStore b) (cards b) (IdStr "c2") ch in
  exists c', getCardById h' updated (IdStr "c2") = Some c'
             /\ deref h' c' = Card.mk (IdStr "c2") Scenario.B "c2" 1 Undefined None.
Proof.
  apply (updateCard_then_getCardById (cardStore Scenario.board) (cards Scenario.board)
           (IdStr "c2") (mkCardChanges None (Some Scenario.B) None (Some 1) None None) 1%nat).
  - unfold well_formed. cbn. repeat constructor.
  - reflexivity.
  - reflexivity.
Defined.

Lemma updateColumn_ext (columns : list loc) (h : list Column.t) (columnId : KanbanId)
    (changes : ColumnChanges) :
  exists ext, fst (updateColumn h columns columnId changes) = h ++ ext.
Proof.
  revert h. induction columns as [|l columns IH]; intros h; cbn.
  - exists []. rewrite app_nil_r. reflexivity.
  - destruct (id_eq (Column.id (deref h l)) columnId); cbn [alloc].
    + destruct (IH (h ++ [spread_column (deref h l) changes])) as [ext Hext].
      destruct (updateColumn _ columns columnId changes) as [h2 rest]. cbn in *.
      exists ([spread_column (deref h l) changes] ++ ext). rewrite Hext, app_assoc. reflexivity.
    + destruct (IH h) as [ext Hext].
      destruct (updateColumn h columns columnId changes) as [h2 rest]. cbn in *. eauto.
Qed.

Lemma updateColumn_then_getColumnById (h : list Column.t) (columns : list loc)
    (columnId : KanbanId) (changes : ColumnChanges) (c : loc) :
  well_formed h columns ->
  chColId changes = None ->
  getColumnById h columns columnId = Some c ->
  let '(h', updated) := updateColumn h columns columnId changes in
  exists c', getColumnById h' updated columnId = Some c'
             /\ deref h' c' = spread_column (deref h c) changes.
Proof.
  intros Hwf Hch. revert h Hwf. unfold getColumnById.
  induction columns as [|l columns IH]; intros h Hwf Hfind; cbn in Hfind; [discriminate|].
  apply Forall_cons in Hwf as [Hl Hwf]. cbn [updateColumn].
  destruct (id_eq (Column.id (deref h l)) columnId) eqn:Hid; cbn [alloc].
  - injection Hfind as <-.
    set (v := spread_column (deref h l) changes).
    destruct (updateColumn_ext columns (h ++ [v]) columnId changes) as [ext Hext].
    destruct (updateColumn (h ++ [v]) columns columnId changes) as [h2 rest].
    cbn in Hext. subst h2.
    assert (Hfresh : deref ((h ++ [v]) ++ ext) (length h) = v).
    { unfold deref. rewrite <- app_assoc. apply list_lookup_total_middle. reflexivity. }
    exists (length h). cbn [List.find]. rewrite Hfresh.
    assert (Hv : id_eq (Column.id v) columnId = true).
    { subst v. unfold spread_column. cbn. rewrite Hch. cbn. exact Hid. }
    rewrite Hv. split; reflexivity.
  - destruct (updateColumn_ext columns h columnId changes) as [ext Hext].
    specialize (IH h Hwf Hfind).
    destruct (updateColumn h columns columnId changes) as [h2 rest]. cbn in Hext. subst h2.
    destruct IH as (c' & Hc' & Hd). exists c'. cbn [List.find].
    assert (Hsame : deref (h ++ ext) l = deref h l)
      by (unfold deref; apply lookup_total_app_l; exact Hl).
    rewrite Hsame, Hid. split; assumption.
Qed.

(** After [updateColumn] has set the [wipLimit] of an existing column,
    [isColumnOverLimit] judges that column by the new limit: never over
    the limit when the limit was removed or set to [0], and otherwise over
    it exactly when the column holds more cards than the new limit. *)
Theorem updateColumn_wipLimit (hc : list Column.t) (columns : list loc)
    (h : list Card.t) (cards : list loc) (columnId : KanbanId)
    (changes : ColumnChanges) (limit : option Z) (c : loc) :
  well_formed hc columns ->
  chColId changes = None ->
  chWipLimit changes = Some limit ->
  getColumnById hc columns columnId = Some c ->
  let '(hc', updated) := updateColumn hc columns columnId changes in
  isColumnOverLimit hc' updated h cards columnId
  = match limit with
    | None => false
    | Some n => negb (n =? 0) && (getCardCount h cards columnId Undefined >? n)
    end.
Proof.
  intros Hwf Hid Hlim Hfind.
  pose proof (updateColumn_then_getColumnById hc columns columnId changes c Hwf Hid Hfind)
    as Hupd.
  destruct (updateColumn hc columns columnId changes) as [hc' updated].
  destruct Hupd as (c' & Hc' & Hd). unfold isColumnOverLimit. rewrite Hc', Hd.
  unfold spread_column. cbn [Column.wipLimit]. rewrite Hlim. cbn [default from_option id].
  destruct limit as [n|]; [|reflexivity]. destruct (n =? 0); reflexivity.
Qed.

Lemma updateColumn_wipLimit_witness :
  let b := Scenario.board in
  let '(hc', updated) :=
    updateColumn (columnStore b) (columns b) Scenario.A
                 (mkColumnChanges None None None (Some (Some 1)) None None) in
  isColumnOverLimit hc' updated (cardStore b) (cards b) Scenario.A
  = negb (1 =? 0) && (getCardCount (cardStore b) (cards b) Scenario.A Undefined >? 1).
Proof.
  apply (updateColumn_wipLimit (columnStore Scenario.board) (columns Scenario.board)
           (cardStore Scenario.board) (cards Scenario.board) Scenario.A
           (mkColumnChanges None None None (Some (Some 1)) None None) (Some 1) 0%nat).
  - unfold well_formed. cbn. repeat constructor.
  - reflexivity.
  - reflexivity.
  - reflexivity.
Defined.

(** *** The concrete cross-column move *)


(** *** Moves inside one group *)

(** C1: the density invariant does not survive a [moveCard] whose source
    group is its target group.  On the dense board [c1(A,0)], [c2(A,1)],
    moving [c2] to index [0] of its own group returns an array in which
    [c1] occurs twice, so that group [A] carries the orders [0, 1, 1]. *)
Theorem moveCard_same_group_not_dense :
  let b := Scenario.boardA in
  let '(h, updated) := moveCard (cardStore b) (cards b) Scenario.move_c2_up in
  dense (cardStore b) (cards b)
  /\ group_orders h updated Scenario.A Undefined = [0; 1; 1]
  /\ ~ dense h updated.
Proof.
  cbv zeta. destruct (moveCard _ _ _) as [h updated] eqn:E. vm_compute in E.
  injection E as <- <-. split; [|split].
  - dense_by_cases.
  - reflexivity.
  - intros Hd. specialize (Hd Scenario.A Undefined). vm_compute in Hd. not_perm Hd.
Qed.

(** Density is also lost through the drop handler, on a move between
    two columns, when the card has no swimlane id: the source swimlane
    of the request is [null], no card of column [A] matches it, and [c2]
    keeps the order [1] although it is now alone in its group. *)
Lemma drop_leaves_gap_in_source_group :
  let b := Scenario.board in
  let b' := fst (run b [CardDragStart 0%nat; ColumnDrop 1%nat Undefined]) in
  dense (cardStore b) (cards b)
  /\ group_orders (cardStore b') (cards b') Scenario.A Undefined = [1]
  /\ ~ dense (cardStore b') (cards b').
Proof.
  cbv zeta. split; [dense_by_cases|]. split; [reflexivity|].
  intros Hd. specialize (Hd Scenario.A Undefined). vm_compute in Hd. not_perm Hd.
Qed.

(** C3: the multiset of card ids is not preserved by a [moveCard] whose
    source group is its target group: from the ids [c1, c2] the move of
    [c2] to index [0] of its own group produces the ids [c2, c1, c1]. *)
Theorem moveCard_same_group_duplicates_id :
  let b := Scenario.boardA in
  let '(h, updated) := moveCard (cardStore b) (cards b) Scenario.move_c2_up in
  card_ids (cardStore b) (cards b) = [IdStr "c1"; IdStr "c2"]
  /\ card_ids h updated = [IdStr "c2"; IdStr "c1"; IdStr "c1"]
  /\ ~ card_ids h updated ≡ₚ card_ids (cardStore b) (cards b).
Proof.
  cbv zeta. destruct (moveCard _ _ _) as [h updated] eqn:E. vm_compute in E.
  injection E as <- <-. split; [reflexivity|]. split; [reflexivity|].
  intros Hp. apply Permutation_length in Hp. vm_compute in Hp. discriminate Hp.
Qed.

(** C9: [moveCard] assigns to the [order] field of card objects of its
    input.  In the cross-column scenario the object of [c2] (location
    [1]) has order [1] before the call and order [0] after it, and the
    object of [c3] (location [2]) goes from order [0] to order [1]. *)
Theorem moveCard_mutates_input_cards :
  let b := Scenario.board in
  let h' := fst (moveCard (cardStore b) (cards b) Scenario.move_c1_to_B) in
  In 1%nat (cards b) /\ In 2%nat (cards b)
  /\ Card.order (deref (cardStore b) 1%nat) = 1 /\ Card.order (deref h' 1%nat) = 0
  /\ Card.order (deref (cardStore b) 2%nat) = 0 /\ Card.order (deref h' 2%nat) = 1.
Proof. vm_compute. repeat split; auto. Qed.

(** On a dense board with unique ids, a card that carries a truthy
    swimlane id and is dropped on the column and swimlane it was dragged
    from is recognised as not moved: the drop only reports
    [drag-end] with [success = true]; no [card-moved], no
    [board-change], and the collections are those of before. *)
Lemma drop_on_own_group_is_noop (b : Board) (c col : loc) :
  let cv := deref (cardStore b) c in
  In c (cards b) ->
  NoDup (card_ids (cardStore b) (cards b)) ->
  dense (cardStore b) (cards b) ->
  id_truthy (Card.id cv) = true ->
  id_truthy (Card.columnId cv) = true ->
  truthy (Card.swimlaneId cv) = true ->
  isDragEnabled b = true ->
  dragType (dragState b) = Some DragCard ->
  draggedId (dragState b) = Id (Card.id cv) ->
  sourceColumnId (dragState b) = Id (Card.columnId cv) ->
  sourceSwimlaneId (dragState b) = or_null (Card.swimlaneId cv) ->
  canAcceptCards (deref (columnStore b) col) = true ->
  Column.id (deref (columnStore b) col) = Card.columnId cv ->
  step b (ColumnDrop col (Card.swimlaneId cv))
  = (with_dragState b idleDragState, [EmitDragEnd (mkDragEnd DragCard (Card.id cv) true)]).
Proof.
  intros cv. subst cv. intros Hin Hnd Hd Hid Hcol Hsw Hen Hty Hdid Hsrc Hss Hacc Hcid.
  cbn [step]. rewrite Hacc, Hcid.
  unfold handleColumnDrop, handleDrop.
  rewrite Hen, Hty, Hdid, Hid, Hsrc, Hcol, Hss.
  rewrite bool_decide_eq_true_2 by reflexivity. cbn [negb orb].
  rewrite (getCardById_unique _ _ c Hnd Hin).
  unfold or_null. rewrite Hsw.
  assert (Hne : Card.swimlaneId (deref (cardStore b) c) <> Undefined).
  { intros Hu. rewrite Hu in Hsw. discriminate Hsw. }
  assert (Hg : in_group (cardStore b) (Card.columnId (deref (cardStore b) c))
                (Card.swimlaneId (deref (cardStore b) c)) c = true).
  { unfold in_group, id_eq, strict_eq. rewrite !bool_decide_eq_true_2 by reflexivity.
    reflexivity. }
  destruct (listing_index_is_order _ _ c _ _ Hne Hnd Hd Hin Hg) as (k & Hk & Hord).
  rewrite Hk.
  unfold id_eq, strict_eq. rewrite !bool_decide_eq_true_2 by reflexivity. cbn [negb orb andb].
  rewrite Hord, Z.eqb_refl. reflexivity.
Qed.

Lemma drop_on_own_group_is_noop_witness :
  step Scenario.laneBoard (ColumnDrop 0%nat (Id Scenario.s1))
  = (with_dragState Scenario.laneBoard idleDragState,
     [EmitDragEnd (mkDragEnd DragCard (IdStr "d1") true)]).
Proof.
  apply (drop_on_own_group_is_noop Scenario.laneBoard 0%nat 0%nat); try reflexivity.
  - left. reflexivity.
  - repeat constructor; rewrite ?elem_of_cons; rewrite ?elem_of_nil; intuition discriminate.
  - dense_by_cases.
Defined.

(** C4: a self-move is not a no-op.  On the dense board [c1(A,0)],
    [c2(A,1)]: (1) [moveCard] asked to put [c2] at the group and index it
    already has returns three cards, [c1] twice; (2) dragging [c1] and
    dropping it on its own column [A] is not recognised as a drop on the
    same group (the source swimlane is [null], the target swimlane
    [undefined]), so [card-moved] and [board-change] are emitted and [c1]
    ends up behind [c2]. *)
Theorem self_move_not_idempotent :
  let b := Scenario.boardA in
  dense (cardStore b) (cards b)
  /\ getCardsForColumn (cardStore b) (cards b) Scenario.A Undefined = [0; 1]%nat
  /\ (let '(h, updated) := moveCard (cardStore b) (cards b) Scenario.move_c2_nowhere in
      snapshot h updated = [Scenario.c1; Scenario.c2; Scenario.c1]
      /\ snapshot h updated <> snapshot (cardStore b) (cards b))
  /\ (let '(b', out) := run b [CardDragStart 0%nat; ColumnDrop 0%nat Undefined] in
      out = [EmitDragStart (mkDragStart DragCard (IdStr "c1") (Id Scenario.A));
             EmitUpdateCards [1; 2]%nat;
             EmitCardMoved (mkCardMove 0%nat Scenario.A Scenario.A 0 2 Null Undefined);
             EmitBoardChange [0%nat] [1; 2]%nat None;
             EmitDragEnd (mkDragEnd DragCard (IdStr "c1") true)]
      /\ snapshot (cardStore b') (cards b')
         = [Card.with_order Scenario.c2 0; Card.with_order Scenario.c1 1]).
Proof.
  cbv zeta. split; [dense_by_cases|]. split; [reflexivity|]. split.
  - destruct (moveCard _ _ _) as [h updated] eqn:E. vm_compute in E.
    injection E as <- <-. split; [reflexivity|]. vm_compute. discriminate.
  - destruct (run _ _) as [b' out] eqn:E. vm_compute in E.
    injection E as <- <-. split; reflexivity.
Qed.

(** *** Stale references *)

Lemma find_none_findIndex {A : Type} (p : A -> bool) (arr : list A) :
  List.find p arr = None -> findIndex p arr = None.
Proof.
  induction arr as [|x arr IH]; cbn; [reflexivity|].
  destruct (p x); [discriminate|]. intros Hn. rewrite IH by exact Hn. reflexivity.
Qed.

(** [moveCard] for a card id missing from the array hands the input back. *)
Lemma moveCard_not_found (h : list Card.t) (cards : list loc) (e : CardMoveEvent) :
  getCardById h cards (Card.id (deref h (card e))) = None ->
  moveCard h cards e = (h, cards).
Proof.
  unfold getCardById, moveCard. intros Hn.
  rewrite (find_none_findIndex _ _ Hn). reflexivity.
Qed.

(** The claim of C5 fails on [Scenario.staleBoard]: the dragged card
    [c2] is no longer in the collection, and neither the drop on column
    [A] nor the [dragend] after it emits a [drag-end] event -- nothing
    at all is emitted. *)
Lemma stale_drop_emits_no_drag_end :
  let b := Scenario.staleBoard in
  draggedId (dragState b) = Id (IdStr "c2")
  /\ getCardById (cardStore b) (cards b) (IdStr "c2") = None
  /\ snd (run b [ColumnDrop 0%nat Undefined; CardDragEnd]) = []
  /\ ~ In (EmitDragEnd (mkDragEnd DragCard (IdStr "c2") true))
          (snd (run b [ColumnDrop 0%nat Undefined; CardDragEnd])).
Proof. vm_compute. repeat split; auto. Qed.

(** C5 (amended): when the dragged card id is not in the current
    collection, the resolver returns its input unchanged, and the drop
    handler leaves every collection unchanged, resets the drag state and
    emits no event; the [dragend] that follows emits none either. *)
Theorem stale_drop_is_silent (b : Board) (did columnId : KanbanId) (swimlaneId : OptId)
    (e : CardMoveEvent) :
  draggedId (dragState b) = Id did ->
  Card.id (deref (cardStore b) (card e)) = did ->
  getCardById (cardStore b) (cards b) did = None ->
  moveCard (cardStore b) (cards b) e = (cardStore b, cards b)
  /\ handleColumnDrop b columnId swimlaneId = (with_dragState b idleDragState, [])
  /\ run (with_dragState b idleDragState) [CardDragEnd] = (with_dragState b idleDragState, []).
Proof.
  intros Hd He Hn. split; [|split].
  - apply moveCard_not_found. rewrite He. exact Hn.
  - unfold handleColumnDrop, handleDrop. rewrite Hd, Hn.
    destruct (negb (isDragEnabled b) || _); [reflexivity|].
    destruct (negb (id_truthy did)); reflexivity.
  - reflexivity.
Qed.

Lemma stale_drop_is_silent_witness :
  let b := Scenario.staleBoard in
  let e := mkCardMove 1%nat Scenario.A Scenario.A 1 0 Null Undefined in
  moveCard (cardStore b) (cards b) e = (cardStore b, cards b)
  /\ handleColumnDrop b Scenario.A Undefined = (with_dragState b idleDragState, [])
  /\ run (with_dragState b idleDragState) [CardDragEnd] = (with_dragState b idleDragState, []).
Proof.
  apply (stale_drop_is_silent Scenario.staleBoard (IdStr "c2")); reflexivity.
Defined.

(** *** Drop targets that refuse cards *)

Lemma run_app (b : Board) (evs1 evs2 : list BoardEvent) :
  run b (evs1 ++ evs2)
  = let '(b1, out1) := run b evs1 in
    let '(b2, out2) := run b1 evs2 in
    (b2, out1 ++ out2).
Proof.
  revert b. induction evs1 as [|ev evs1 IH]; intros b; cbn.
  - destruct (run b evs2); reflexivity.
  - destruct (step b ev) as [b1 out1]. rewrite IH.
    destruct (run b1 evs1) as [b2 out2]. destruct (run b2 evs2) as [b3 out3].
    rewrite app_assoc. reflexivity.
Qed.

Lemma run_hovers (b : Board) (hovers : list BoardEvent) :
  Forall is_hover hovers ->
  exists ds,
    run b hovers = (with_dragState b ds, [])
    /\ draggedId ds = draggedId (dragState b)
    /\ dragType ds = dragType (dragState b).
Proof.
  intros Hh. revert b. induction Hh as [|ev hovers Hev _ IH]; intros b.
  - exists (dragState b). destruct b; auto.
  - destruct ev as [| |col swim|]; try contradiction. cbn [run step].
    destruct (canAcceptCards _).
    + destruct (IH (with_dragState b
                      (handleDragOver (isDragEnabled b) (dragState b)
                         (Column.id (deref (columnStore b) col)) swim)))
        as (ds & Hrun & Hid & Hty).
      exists ds. rewrite Hrun. cbn in *. split; [reflexivity|].
      rewrite Hid, Hty. unfold handleDragOver.
      destruct (negb (isDragEnabled b) || negb (isDragging (dragState b))); auto.
    + destruct (IH b) as (ds & Hrun & Hid & Hty).
      exists ds. rewrite Hrun. auto.
Qed.

(** For a card whose id is truthy, a gesture that ends with a drop on a
    column refusing cards leaves the collections alone and emits
    [drag-start] and [drag-end] with [success = false], nothing else. *)
Lemma rejected_drop_truthy_id (b : Board) (c col : loc) (swim : OptId)
    (hovers : list BoardEvent) :
  canDrag b (deref (cardStore b) c) = true ->
  id_truthy (Card.id (deref (cardStore b) c)) = true ->
  canAcceptCards (deref (columnStore b) col) = false ->
  Forall is_hover hovers ->
  let cv := deref (cardStore b) c in
  run b (CardDragStart c :: hovers ++ [ColumnDrop col swim; CardDragEnd])
  = (with_dragState b idleDragState,
     [EmitDragStart (mkDragStart DragCard (Card.id cv) (Id (Card.columnId cv)));
      EmitDragEnd (mkDragEnd DragCard (Card.id cv) false)]).
Proof.
  intros Hdrag Hid Hrej Hh cv. subst cv. cbn [run step]. rewrite Hdrag.
  unfold canDrag, boardEnableDragDrop in Hdrag. apply andb_prop in Hdrag as [Hen Hdr].
  assert (Hen' : isDragEnabled b = true).
  { unfold isDragEnabled. destruct (enableDragDrop (options b)) as [[|]|]; auto. }
  unfold startCardDrag. rewrite Hen', Hdr. cbn [negb orb apply_drag fst snd run_callbacks run_callback].
  rewrite run_app.
  match goal with |- context [run ?b1 hovers] =>
    destruct (run_hovers b1 hovers Hh) as (ds & Hrun & Hd & Ht); rewrite Hrun end.
  cbn in Hd, Ht. unfold with_dragState. cbn [run step columnStore dragState].
  rewrite Hrej. unfold handleDragEnd. cbn [dragState]. rewrite Hd, Ht, Hid.
  destruct b; reflexivity.
Qed.

Lemma rejected_drop_truthy_id_witness :
  run Scenario.lockedBoard1
      [CardDragStart 0%nat; ColumnDragOver 0%nat Undefined; ColumnDragOver 1%nat Undefined;
       ColumnDrop 1%nat Undefined; CardDragEnd]
  = (Scenario.lockedBoard1,
     [EmitDragStart (mkDragStart DragCard (IdStr "c1") (Id Scenario.A));
      EmitDragEnd (mkDragEnd DragCard (IdStr "c1") false)]).
Proof.
  apply (rejected_drop_truthy_id Scenario.lockedBoard1 0%nat 1%nat Undefined
           [ColumnDragOver 0%nat Undefined; ColumnDragOver 1%nat Undefined]);
    try reflexivity.
  repeat constructor.
Defined.

(** C6: the [drag-end] event is lost when the dragged card has the id
    [0].  On [Scenario.lockedBoard] that card is dragged over and dropped
    on column [B], which refuses cards: the collections stay as they are
    and no move is emitted, but the only event of the whole gesture is
    [drag-start]. *)
Theorem rejected_drop_falsy_id_no_drag_end :
  let b := Scenario.lockedBoard in
  let gesture :=
    [CardDragStart 0%nat; ColumnDragOver 1%nat Undefined;
     ColumnDrop 1%nat Undefined; CardDragEnd] in
  canAcceptCards (deref (columnStore b) 1%nat) = false
  /\ collections (fst (run b gesture)) = collections b
  /\ snd (run b gesture) = [EmitDragStart (mkDragStart DragCard (IdNum 0) (Id Scenario.A))]
  /\ forall e, ~ In (EmitDragEnd e) (snd (run b gesture)).
Proof.
  vm_compute. repeat split; auto. intros e [H|[]]. discriminate H.
Qed.

(** *** Work-in-progress limits *)

(** Without a swimlane, [getCardCount] counts the cards whose [columnId]
    matches. *)
Lemma getCardCount_column (h : list Card.t) (cards : list loc) (columnId : KanbanId) :
  getCardCount h cards columnId Undefined
  = Z.of_nat (length (List.filter (fun c => id_eq (Card.columnId (deref h c)) columnId) cards)).
Proof.
  unfold getCardCount, getCardsForColumn. rewrite length_sort_by_order.
  do 2 f_equal. apply List.filter_ext. intros c. cbn. apply andb_true_r.
Qed.

(** [getColumnById] finds a column exactly when one with that id exists. *)
Lemma getColumnById_is_Some (hc : list Column.t) (columns : list loc) (columnId : KanbanId) :
  is_Some (getColumnById hc columns columnId)
  <-> exists col, In col columns /\ Column.id (deref hc col) = columnId.
Proof.
  unfold getColumnById. split.
  - intros [col Hf]. apply List.find_some in Hf as [Hin Hid].
    exists col. split; [exact Hin|]. unfold id_eq in Hid. apply bool_decide_eq_true in Hid. exact Hid.
  - intros (col & Hin & Hid).
    destruct (List.find _ columns) as [c|] eqn:Hf; [eexists; reflexivity|].
    pose proof (List.find_none _ _ Hf col Hin) as Hno. cbn in Hno.
    unfold id_eq in Hno. apply bool_decide_eq_false in Hno. contradiction.
Qed.

(** The claim of C7 fails on [Scenario.zeroLimitBoard]: column [A]
    exists, its limit is set (to [0]) and its one card exceeds it, yet
    [isColumnOverLimit] answers [false]. *)
Lemma zero_wipLimit_not_over_limit :
  let b := Scenario.zeroLimitBoard in
  ~ (isColumnOverLimit (columnStore b) (columns b) (cardStore b) (cards b) Scenario.A = true
     <-> exists col limit,
           getColumnById (columnStore b) (columns b) Scenario.A = Some col
           /\ Column.wipLimit (deref (columnStore b) col) = Some limit
           /\ Z.of_nat (length (List.filter
                                  (fun c => id_eq (Card.columnId (deref (cardStore b) c))
                                                  Scenario.A)
                                  (cards b)))
              > limit).
Proof.
  cbv zeta. intros [_ Hback].
  assert (Hf : isColumnOverLimit (columnStore Scenario.zeroLimitBoard)
                 (columns Scenario.zeroLimitBoard) (cardStore Scenario.zeroLimitBoard)
                 (cards Scenario.zeroLimitBoard) Scenario.A = false) by reflexivity.
  rewrite Hf in Hback. enough (false = true) by discriminate. apply Hback.
  exists 0%nat, 0. repeat split.
Qed.

(** C7 (amended): [isColumnOverLimit(columnId)] is [true] exactly when
    the column exists, its [wipLimit] is set to a value other than [0],
    and the number of cards whose [columnId] matches strictly exceeds
    that limit. *)
Theorem isColumnOverLimit_iff (hc : list Column.t) (columns : list loc)
    (h : list Card.t) (cards : list loc) (columnId : KanbanId) :
  isColumnOverLimit hc columns h cards columnId = true
  <-> exists col limit,
        getColumnById hc columns columnId = Some col
        /\ Column.wipLimit (deref hc col) = Some limit
        /\ limit <> 0
        /\ Z.of_nat (length (List.filter
                               (fun c => id_eq (Card.columnId (deref h c)) columnId) cards))
           > limit.
Proof.
  unfold isColumnOverLimit. rewrite getCardCount_column. split.
  - destruct (getColumnById hc columns columnId) as [col|]; [|discriminate].
    destruct (Column.wipLimit (deref hc col)) as [limit|] eqn:Hw; [|discriminate].
    destruct (limit =? 0) eqn:Hz; [discriminate|]. intros Hgt.
    apply Z.eqb_neq in Hz. apply Z.gtb_gt in Hgt.
    exists col, limit. auto.
  - intros (col & limit & -> & -> & Hnz & Hgt).
    destruct (limit =? 0) eqn:Hz; [apply Z.eqb_eq in Hz; contradiction|].
    apply Z.gtb_gt. exact Hgt.
Qed.

(** *** One gesture at a time *)

(** The claim of C8 fails: while the gesture of [c1] is active, a drag
    start on [c2] is not rejected; it overwrites the drag state, whose
    subject becomes [c2]. *)
Lemma second_startCardDrag_not_rejected :
  let ds := fst (startCardDrag true Scenario.c1 idleDragState) in
  isDragging ds = true
  /\ draggedId ds = Id (IdStr "c1")
  /\ fst (startCardDrag true Scenario.c2 ds) <> ds
  /\ draggedId (fst (startCardDrag true Scenario.c2 ds)) = Id (IdStr "c2").
Proof. vm_compute. repeat split; auto. discriminate. Qed.

(** C8 (amended): the drag state names at most one subject, and a
    [startCardDrag] or [startColumnDrag] that arrives while a gesture is
    active is rejected only when dragging is disabled for that kind or
    the subject is marked non-draggable -- then the active state and the
    (empty) callback list are left as they are.  Otherwise the call is
    accepted: the new subject replaces the active one, the drop target is
    cleared and [drag-start] is reported. *)
Theorem beginDrag_while_active (ds : DragState) :
  isDragging ds = true ->
  (forall enabled card,
      let r := startCardDrag enabled card ds in
      (enabled = false \/ Card.draggable card = Some false -> r = (ds, []))
      /\ (enabled = true -> Card.draggable card <> Some false ->
          isDragging (fst r) = true
          /\ dragType (fst r) = Some DragCard
          /\ draggedId (fst r) = Id (Card.id card)
          /\ sourceColumnId (fst r) = Id (Card.columnId card)
          /\ sourceSwimlaneId (fst r) = or_null (Card.swimlaneId card)
          /\ dropColumnId (fst r) = Null /\ dropSwimlaneId (fst r) = Null
          /\ snd r = [OnDragStart (mkDragStart DragCard (Card.id card)
                                               (Id (Card.columnId card)))]))
  /\ (forall enabled column,
      let r := startColumnDrag enabled column ds in
      (enabled = false \/ Column.draggable column = Some false -> r = (ds, []))
      /\ (enabled = true -> Column.draggable column <> Some false ->
          isDragging (fst r) = true
          /\ dragType (fst r) = Some DragColumn
          /\ draggedId (fst r) = Id (Column.id column)
          /\ sourceColumnId (fst r) = Null /\ sourceSwimlaneId (fst r) = Null
          /\ dropColumnId (fst r) = Null /\ dropSwimlaneId (fst r) = Null
          /\ snd r = [OnDragStart (mkDragStart DragColumn (Column.id column) Undefined)])).
Proof.
  intros _. split.
  - intros enabled c r. subst r. unfold startCardDrag. split.
    + intros [-> | ->]; [reflexivity|]. destruct enabled; reflexivity.
    + intros -> Hd. destruct (Card.draggable c) as [[|]|]; try congruence; cbn; repeat split.
  - intros enabled c r. subst r. unfold startColumnDrag. split.
    + intros [-> | ->]; [reflexivity|]. destruct enabled; reflexivity.
    + intros -> Hd. destruct (Column.draggable c) as [[|]|]; try congruence; cbn; repeat split.
Qed.

Lemma beginDrag_while_active_witness :
  let ds := fst (startCardDrag true Scenario.c1 idleDragState) in
  isDragging ds = true
  /\ draggedId (fst (startCardDrag true Scenario.c2 ds)) = Id (IdStr "c2")
  /\ startColumnDrag false Scenario.colA ds = (ds, []).
Proof.
  cbv zeta.
  pose proof (beginDrag_while_active (fst (startCardDrag true Scenario.c1 idleDragState))
                eq_refl) as [Hcard Hcol].
  split; [reflexivity|]. split.
  - destruct (Hcard true Scenario.c2) as [_ Hacc].
    destruct (Hacc eq_refl) as (_ & _ & Hid & _); [discriminate|]. exact Hid.
  - destruct (Hcol false Scenario.colA) as [Hrej _]. apply Hrej. left. reflexivity.
Defined.

(** *** Drops append *)

Lemma in_onCardMoved (b : Board) (e e' : CardMoveEvent) :
  In (EmitCardMoved e') (snd (onCardMoved b e)) -> e' = e.
Proof.
  unfold onCardMoved. destruct (moveCard _ _ _) as [h updated]. cbn.
  intros [H|[H|[H|[]]]]; congruence.
Qed.

Lemma in_run_callbacks (cbs : list Callback) (b : Board) (e : CardMoveEvent) :
  In (EmitCardMoved e) (snd (run_callbacks b cbs)) -> In (OnCardMoved e) cbs.
Proof.
  revert b. induction cbs as [|cb cbs IH]; intros b; cbn; [tauto|].
  destruct (run_callback b cb) as [b1 out1] eqn:Hcb.
  destruct (run_callbacks b1 cbs) as [b2 out2] eqn:Hrest. cbn.
  intros Hin. apply in_app_or in Hin as [Hin|Hin].
  - left. destruct cb as [s|d|m]; cbn in Hcb.
    + injection Hcb as <- <-. destruct Hin as [H|[]]. discriminate H.
    + injection Hcb as <- <-. destruct Hin as [H|[]]. discriminate H.
    + f_equal. symmetry. apply (in_onCardMoved b). rewrite Hcb. exact Hin.
  - right. apply (IH b1). rewrite Hrest. exact Hin.
Qed.

(** The move request [handleDrop] hands to [onCardMoved]: its target is
    the group dropped on, and unless that group is the source group its
    index is the length of the listing of the target group. *)
Lemma handleDrop_moved (enabled : bool) (h : list Card.t) (ds : DragState)
    (columnId : KanbanId) (swimlaneId : OptId)
    (getCard : KanbanId -> option loc) (getCardsInColumn : KanbanId -> OptId -> list loc)
    (e : CardMoveEvent) :
  In (OnCardMoved e)
     (snd (handleDrop enabled h ds columnId swimlaneId getCard getCardsInColumn)) ->
  toColumnId e = columnId
  /\ toSwimlaneId e = swimlaneId
  /\ ((toColumnId e, toSwimlaneId e) <> (fromColumnId e, fromSwimlaneId e) ->
      toIndex e = Z.of_nat (length (getCardsInColumn columnId swimlaneId))).
Proof.
  unfold handleDrop.
  destruct (negb enabled || _); [intros []|].
  destruct (draggedId ds) as [| |did]; try (intros []).
  destruct (negb (id_truthy did)); [intros []|].
  destruct (getCard did) as [c|]; [|intros []].
  destruct (sourceColumnId ds) as [| |fromCol]; try (intros []).
  destruct (negb (id_truthy fromCol)); [intros []|].
  cbn [snd].
  destruct (negb (id_eq columnId fromCol) || _ || _); cbn [app].
  - intros [Hin|[Hin|[]]]; [|discriminate Hin]. injection Hin as <-. cbn.
    split; [reflexivity|]. split; [reflexivity|]. intros Hdiff.
    destruct (id_eq columnId fromCol && strict_eq swimlaneId (sourceSwimlaneId ds)) eqn:Hs;
      [|reflexivity].
    exfalso. apply Hdiff. apply andb_prop in Hs as [Hc Hw].
    unfold id_eq in Hc. unfold strict_eq in Hw.
    apply bool_decide_eq_true in Hc. apply bool_decide_eq_true in Hw. congruence.
  - intros [Hin|[]]. discriminate Hin.
Qed.

(** When a drop emits a [card-moved] event whose target group differs
    from its source group, the target is the column and swimlane dropped
    on, and [toIndex] is the number of cards the store lists for that
    column and swimlane. *)
Theorem drop_on_other_group_appends (b : Board) (col : loc) (swimlaneId : OptId)
    (e : CardMoveEvent) :
  In (EmitCardMoved e) (snd (step b (ColumnDrop col swimlaneId))) ->
  (toColumnId e, toSwimlaneId e) <> (fromColumnId e, fromSwimlaneId e) ->
  toColumnId e = Column.id (deref (columnStore b) col)
  /\ toSwimlaneId e = swimlaneId
  /\ toIndex e = getCardCount (cardStore b) (cards b) (toColumnId e) (toSwimlaneId e)
  /\ toIndex e
     = Z.of_nat (length (getCardsForColumn (cardStore b) (cards b)
                                           (toColumnId e) (toSwimlaneId e))).
Proof.
  cbn [step]. destruct (canAcceptCards _); [|intros []].
  unfold handleColumnDrop, apply_drag. intros Hin Hdiff.
  apply in_run_callbacks in Hin. apply handleDrop_moved in Hin as (Hc & Hs & Hidx).
  specialize (Hidx Hdiff). unfold getCardCount. rewrite Hc, Hs. auto.
Qed.

Lemma drop_on_other_group_appends_witness :
  let b := fst (step Scenario.board (CardDragStart 0%nat)) in
  let e := mkCardMove 0%nat Scenario.A Scenario.B 0 1 Null Undefined in
  In (EmitCardMoved e) (snd (step b (ColumnDrop 1%nat Undefined)))
  /\ toIndex e = getCardCount (cardStore b) (cards b) (toColumnId e) (toSwimlaneId e).
Proof.
  cbv zeta. split.
  - vm_compute. right. left. reflexivity.
  - apply (drop_on_other_group_appends
             (fst (step Scenario.board (CardDragStart 0%nat))) 1%nat Undefined).
    + vm_compute. right. left. reflexivity.
    + vm_compute. intros H. discriminate H.
Defined.



(** C10: the dropped card does not always go to the end.  On
    [Scenario.mixedBoard] swimlanes are off, the board is dense, and
    column [B] lists the two cards [b1], [b2], which carry a swimlane id.
    Dropping [c1] on [B] emits [card-moved] with [toIndex = 2], the length
    of that listing; but [moveCard] finds no card in the target group
    [(B, undefined)], gives the card the [order] [0], and column [B] then
    lists it between [b1] and [b2]. *)
Theorem drop_lands_between_cards :
  let b := Scenario.mixedBoard in
  let b' := fst (run b Scenario.drag_first_card_to_B) in
  let moved := Card.mk (IdStr "c1") Scenario.B "c1" 0 Undefined None in
  dense (cardStore b) (cards b)
  /\ swimlanesEnabled b = false
  /\ snapshot (cardStore b) (getCardsForColumn (cardStore b) (cards b) Scenario.B Undefined)
     = [Scenario.b1; Scenario.b2]
  /\ snd (run b Scenario.drag_first_card_to_B)
     = [EmitDragStart (mkDragStart DragCard (IdStr "c1") (Id Scenario.A));
        EmitUpdateCards (cards b');
        EmitCardMoved (mkCardMove 0%nat Scenario.A Scenario.B 0 2 Null Undefined);
        EmitBoardChange (columns b) (cards b') None;
        EmitDragEnd (mkDragEnd DragCard (IdStr "c1") true)]
  /\ snapshot (cardStore b') (getCardsForColumn (cardStore b') (cards b') Scenario.B Undefined)
     = [Scenario.b1; moved; Scenario.b2].
Proof.
  cbv zeta. split; [dense_by_cases|]. vm_compute. repeat split; reflexivity.
Qed.

(** *** Whole gestures *)

Lemma run_single (b : Board) (ev : BoardEvent) : run b [ev] = step b ev.
Proof. cbn. destruct (step b ev). rewrite app_nil_r. reflexivity. Qed.

Lemma run_hovers_subject (b : Board) (hovers : list BoardEvent) :
  Forall is_hover hovers ->
  exists ds,
    run b hovers = (with_dragState b ds, [])
    /\ draggedId ds = draggedId (dragState b)
    /\ dragType ds = dragType (dragState b)
    /\ sourceColumnId ds = sourceColumnId (dragState b)
    /\ sourceSwimlaneId ds = sourceSwimlaneId (dragState b).
Proof.
  intros Hh. revert b. induction Hh as [|ev hovers Hev _ IH]; intros b.
  - exists (dragState b). destruct b; auto.
  - destruct ev as [| |col swim|]; try contradiction. cbn [run step].
    destruct (canAcceptCards _).
    + destruct (IH (with_dragState b
                      (handleDragOver (isDragEnabled b) (dragState b)
                         (Column.id (deref (columnStore b) col)) swim)))
        as (ds & Hrun & Hid & Hty & Hsc & Hss).
      exists ds. rewrite Hrun. cbn in *. split; [reflexivity|].
      rewrite Hid, Hty, Hsc, Hss. unfold handleDragOver.
      destruct (negb (isDragEnabled b) || negb (isDragging (dragState b))); auto.
    + destruct (IH b) as (ds & Hrun & Hrest).
      exists ds. rewrite Hrun. auto.
Qed.

Lemma handleDrop_subject (enabled : bool) (h : list Card.t) (ds ds' : DragState)
    (columnId : KanbanId) (swimlaneId : OptId)
    (getCard : KanbanId -> option loc) (getCardsInColumn : KanbanId -> OptId -> list loc) :
  draggedId ds' = draggedId ds ->
  dragType ds' = dragType ds ->
  sourceColumnId ds' = sourceColumnId ds ->
  sourceSwimlaneId ds' = sourceSwimlaneId ds ->
  handleDrop enabled h ds' columnId swimlaneId getCard getCardsInColumn
  = handleDrop enabled h ds columnId swimlaneId getCard getCardsInColumn.
Proof.
  intros Hid Hty Hsc Hss. unfold handleDrop, resetDragState.
  rewrite Hid, Hty, Hsc, Hss. reflexivity.
Qed.

Lemma handleDrop_resets (enabled : bool) (h : list Card.t) (ds : DragState)
    (columnId : KanbanId) (swimlaneId : OptId)
    (getCard : KanbanId -> option loc) (getCardsInColumn : KanbanId -> OptId -> list loc) :
  fst (handleDrop enabled h ds columnId swimlaneId getCard getCardsInColumn) = idleDragState.
Proof.
  unfold handleDrop, resetDragState.
  destruct (negb enabled || _); [reflexivity|].
  destruct (draggedId ds) as [| |did]; try reflexivity.
  destruct (negb (id_truthy did)); [reflexivity|].
  destruct (getCard did) as [c|]; [|reflexivity].
  destruct (sourceColumnId ds) as [| |fromCol]; try reflexivity.
  destruct (negb (id_truthy fromCol)); reflexivity.
Qed.

Lemma run_callback_dragState (b : Board) (cb : Callback) :
  dragState (fst (run_callback b cb)) = dragState b.
Proof.
  destruct cb as [s|d|m]; cbn; try reflexivity.
  unfold onCardMoved. destruct (moveCard _ _ _). reflexivity.
Qed.

Lemma run_callbacks_dragState (cbs : list Callback) (b : Board) :
  dragState (fst (run_callbacks b cbs)) = dragState b.
Proof.
  revert b. induction cbs as [|cb cbs IH]; intros b; cbn; [reflexivity|].
  pose proof (run_callback_dragState b cb) as Hcb.
  destruct (run_callback b cb) as [b1 out1]. specialize (IH b1).
  destruct (run_callbacks b1 cbs) as [b2 out2]. cbn in *. congruence.
Qed.

Lemma handleColumnDrop_idle (b : Board) (columnId : KanbanId) (swimlaneId : OptId) :
  dragState (fst (handleColumnDrop b columnId swimlaneId)) = idleDragState.
Proof.
  unfold handleColumnDrop, apply_drag. rewrite run_callbacks_dragState.
  cbn [with_dragState dragState]. apply handleDrop_resets.
Qed.

Lemma dragEnd_when_idle (b : Board) :
  dragState b = idleDragState -> step b CardDragEnd = (b, []).
Proof.
  intros Hidle. cbn [step]. rewrite Hidle. destruct b. cbn in *. subst. reflexivity.
Qed.

Lemma drop_through_hovers (b : Board) (hovers : list BoardEvent) (col : loc) (swim : OptId) :
  Forall is_hover hovers ->
  canAcceptCards (deref (columnStore b) col) = true ->
  run b (hovers ++ [ColumnDrop col swim]) = step b (ColumnDrop col swim).
Proof.
  intros Hh Hacc. rewrite run_app.
  destruct (run_hovers_subject b hovers Hh) as (ds & Hrun & Hid & Hty & Hsc & Hss).
  rewrite Hrun, run_single. cbn [step]. cbn [with_dragState columnStore]. rewrite Hacc.
  unfold handleColumnDrop, apply_drag. cbn [with_dragState cardStore cards dragState].
  rewrite (handleDrop_subject _ _ (dragState b) ds) by assumption.
  match goal with |- context [run_callbacks ?b1 ?cbs] =>
    change (isDragEnabled b1) with (isDragEnabled b) end.
  destruct (run_callbacks _ _) as [b2 out2]. reflexivity.
Qed.

Lemma dragEnd_after_drop (b : Board) (col : loc) (swim : OptId) :
  canAcceptCards (deref (columnStore b) col) = true ->
  run b [ColumnDrop col swim; CardDragEnd] = step b (ColumnDrop col swim).
Proof.
  intros Hacc. change [ColumnDrop col swim; CardDragEnd]
    with ([ColumnDrop col swim] ++ [CardDragEnd]).
  rewrite run_app, !run_single.
  assert (Hidle : dragState (fst (step b (ColumnDrop col swim))) = idleDragState).
  { cbn [step]. rewrite Hacc. apply handleColumnDrop_idle. }
  destruct (step b (ColumnDrop col swim)) as [b1 out1]. cbn in Hidle.
  rewrite run_single, (dragEnd_when_idle b1 Hidle), app_nil_r. reflexivity.
Qed.

(** On a column that accepts cards the drop alone decides the outcome.
    The target recorded while hovering is never read: the drop does the
    same, to the board and in what it emits, whatever was hovered over
    before it.  And it always leaves the drag state idle, so the [dragend]
    the browser fires after it emits nothing and changes nothing. *)
Theorem drop_alone_decides (b : Board) (hovers : list BoardEvent)
    (col : loc) (swim : OptId) :
  Forall is_hover hovers ->
  canAcceptCards (deref (columnStore b) col) = true ->
  run b (hovers ++ [ColumnDrop col swim]) = step b (ColumnDrop col swim)
  /\ run b (hovers ++ [ColumnDrop col swim; CardDragEnd]) = step b (ColumnDrop col swim).
Proof.
  intros Hh Hacc. split; [apply drop_through_hovers; assumption|].
  rewrite run_app.
  destruct (run_hovers_subject b hovers Hh) as (ds & Hrun & _).
  rewrite Hrun, (dragEnd_after_drop (with_dragState b ds) col swim) by exact Hacc.
  pose proof (drop_through_hovers b hovers col swim Hh Hacc) as Hdrop.
  rewrite run_app, Hrun, run_single in Hdrop.
  destruct (step (with_dragState b ds) (ColumnDrop col swim)) as [b2 out2].
  exact Hdrop.
Qed.

Lemma drop_alone_decides_witness :
  let b := fst (step Scenario.board (CardDragStart 0%nat)) in
  run b [ColumnDragOver 0%nat Undefined; ColumnDragOver 1%nat (Id (IdStr "lane"));
         ColumnDrop 1%nat Undefined]
  = step b (ColumnDrop 1%nat Undefined)
  /\ run b [ColumnDragOver 0%nat Undefined; ColumnDragOver 1%nat (Id (IdStr "lane"));
            ColumnDrop 1%nat Undefined; CardDragEnd]
     = step b (ColumnDrop 1%nat Undefined).
Proof.
  apply (drop_alone_decides (fst (step Scenario.board (CardDragStart 0%nat)))
           [ColumnDragOver 0%nat Undefined; ColumnDragOver 1%nat (Id (IdStr "lane"))]
           1%nat Undefined).
  - repeat constructor.
  - reflexivity.
Defined.

(** With [enableDragDrop: false] and no gesture in progress, no sequence
    of drag events changes the board or emits anything. *)
Theorem disabled_board_is_inert (b : Board) (evs : list BoardEvent) :
  enableDragDrop (options b) = Some false ->
  dragState b = idleDragState ->
  run b evs = (b, []).
Proof.
  intros Hoff Hidle. induction evs as [|ev evs IH]; [reflexivity|].
  assert (Hstep : step b ev = (b, [])).
  { destruct ev as [c| |col swim|col swim]; cbn [step].
    - unfold canDrag, boardEnableDragDrop. rewrite Hoff. reflexivity.
    - apply dragEnd_when_idle. exact Hidle.
    - destruct (canAcceptCards _); [|reflexivity].
      unfold isDragEnabled, handleDragOver. rewrite Hoff. cbn. destruct b; reflexivity.
    - destruct (canAcceptCards _); [|reflexivity].
      unfold handleColumnDrop, isDragEnabled, handleDrop. rewrite Hoff. cbn.
      destruct b. cbn in *. subst. reflexivity. }
  cbn [run]. rewrite Hstep, IH. reflexivity.
Qed.

Lemma disabled_board_is_inert_witness :
  let b := mkBoard [Scenario.c1; Scenario.c2; Scenario.c3] [0; 1; 2]%nat
                   [Scenario.colA; Scenario.colB] [0; 1]%nat []
                   (mkOptions (Some false) None None) idleDragState in
  run b [CardDragStart 0%nat; ColumnDragOver 1%nat Undefined; ColumnDrop 1%nat Undefined;
         CardDragEnd]
  = (b, []).
Proof.
  apply (disabled_board_is_inert
           (mkBoard [Scenario.c1; Scenario.c2; Scenario.c3] [0; 1; 2]%nat
                    [Scenario.colA; Scenario.colB] [0; 1]%nat []
                    (mkOptions (Some false) None None) idleDragState)); reflexivity.
Defined.

Lemma step_drag_balance (b : Board) (ev : BoardEvent) :
  (length (List.filter is_drag_end (snd (step b ev)))
   + (if has_subject (dragState (fst (step b ev))) then 1 else 0)
   <= length (List.filter is_drag_start (snd (step b ev)))
      + (if has_subject (dragState b) then 1 else 0))%nat.
Proof.
  destruct ev as [c| |col swim|col swim]; cbn [step].
  - destruct (canDrag _ _); [|cbn; lia].
    unfold startCardDrag. destruct (negb _ || negb _); cbn.
    + destruct (has_subject (dragState b)); lia.
    + destruct (has_subject (dragState b)); lia.
  - unfold handleDragEnd, has_subject.
    destruct (draggedId (dragState b)) as [| |did]; cbn; try lia;
      destruct (dragType (dragState b)) as [ty|]; cbn; try lia.
    destruct (id_truthy did); cbn; lia.
  - destruct (canAcceptCards _); [|cbn; lia].
    unfold handleDragOver, has_subject.
    destruct (negb _ || negb _); cbn; lia.
  - destruct (canAcceptCards _); [|cbn; lia].
    unfold handleColumnDrop, handleDrop, has_subject, resetDragState.
    destruct (negb (isDragEnabled b) || _) eqn:Hgate; [cbn; lia|].
    apply orb_false_elim in Hgate as [_ Hty]. apply negb_false_iff in Hty.
    apply bool_decide_eq_true in Hty. rewrite Hty.
    destruct (draggedId (dragState b)) as [| |did]; cbn; try lia.
    destruct (negb (id_truthy did)); [cbn; lia|].
    destruct (getCardById _ _ did) as [c|]; [|cbn; lia].
    destruct (sourceColumnId (dragState b)) as [| |fromCol]; cbn; try lia.
    destruct (negb (id_truthy fromCol)); [cbn; lia|].
    destruct (negb (id_eq _ fromCol) || _ || _); cbn.
    + unfold onCardMoved. destruct (moveCard _ _ _) as [h' updated]. cbn. lia.
    + lia.
Qed.

(** Over any sequence of drag events, every [drag-end] the board emits
    is paid for by an earlier [drag-start] or by the subject the drag state
    held at the beginning: the [drag-end] events, plus one if a subject is
    still recorded at the end, never outnumber the [drag-start] events
    plus one if a subject was recorded at the beginning. *)
Theorem drag_ends_bounded_by_starts (evs : list BoardEvent) (b : Board) :
  (length (List.filter is_drag_end (snd (run b evs)))
   + (if has_subject (dragState (fst (run b evs))) then 1 else 0)
   <= length (List.filter is_drag_start (snd (run b evs)))
      + (if has_subject (dragState b) then 1 else 0))%nat.
Proof.
  revert b. induction evs as [|ev evs IH]; intros b; [cbn; lia|].
  cbn [run]. pose proof (step_drag_balance b ev) as Hstep.
  destruct (step b ev) as [b1 out1]. specialize (IH b1).
  destruct (run b1 evs) as [b2 out2]. cbn [fst snd] in *.
  rewrite !List.filter_app, !length_app. lia.
Qed.

(** A column drag can only be cancelled: once [startColumnDrag] has
    accepted a column, [handleDrop] resets the state without calling any
    callback, whatever it is dropped on, and [handleDragEnd] reports the
    gesture with [success = false]. *)
Theorem column_drag_only_cancels (column : Column.t) (ds : DragState)
    (enabled : bool) (h : list Card.t) (columnId : KanbanId) (swimlaneId : OptId)
    (getCard : KanbanId -> option loc) (getCardsInColumn : KanbanId -> OptId -> list loc) :
  not_false (Column.draggable column) = true ->
  let ds' := fst (startColumnDrag true column ds) in
  handleDrop enabled h ds' columnId swimlaneId getCard getCardsInColumn = (idleDragState, [])
  /\ handleDragEnd ds'
     = (idleDragState,
        if id_truthy (Column.id column)
        then [OnDragEnd (mkDragEnd DragColumn (Column.id column) false)]
        else []).
Proof.
  intros Hdr ds'. subst ds'. unfold startColumnDrag. rewrite Hdr. cbn [negb orb fst].
  split.
  - unfold handleDrop. cbn [dragType]. rewrite orb_true_r. reflexivity.
  - unfold handleDragEnd. cbn [draggedId dragType].
    destruct (id_truthy (Column.id column)); reflexivity.
Qed.

Lemma column_drag_only_cancels_witness :
  let ds' := fst (startColumnDrag true Scenario.colA idleDragState) in
  handleDrop true (cardStore Scenario.board) ds' Scenario.B Undefined
             (getCardById (cardStore Scenario.board) (cards Scenario.board))
             (getCardsForColumn (cardStore Scenario.board) (cards Scenario.board))
  = (idleDragState, [])
  /\ handleDragEnd ds'
     = (idleDragState, [OnDragEnd (mkDragEnd DragColumn Scenario.A false)]).
Proof.
  apply (column_drag_only_cancels Scenario.colA idleDragState true
           (cardStore Scenario.board) Scenario.B Undefined
           (getCardById (cardStore Scenario.board) (cards Scenario.board))
           (getCardsForColumn (cardStore Scenario.board) (cards Scenario.board))).
  reflexivity.
Defined.

Lemma onCardMoved_eq (b : Board) (e : CardMoveEvent) :
  onCardMoved b e
  = (mkBoard (fst (moveCard (cardStore b) (cards b) e))
             (snd (moveCard (cardStore b) (cards b) e))
             (columnStore b) (columns b) (swimlanes b) (options b) (dragState b),
     [EmitUpdateCards (snd (moveCard (cardStore b) (cards b) e));
      EmitCardMoved e;
      EmitBoardChange (columns b) (snd (moveCard (cardStore b) (cards b) e))
                      (if swimlanesEnabled b then Some (swimlanes b) else None)]).
Proof. unfold onCardMoved. destruct (moveCard _ _ _). reflexivity. Qed.

(** A whole gesture that carries a card to another column: the card is
    picked up, dragged over any targets, dropped on a column that accepts
    cards, and the browser's [dragend] follows.  The board calls [moveCard]
    once, with the end of the listing of the target group as index, and
    emits [drag-start], [update:cards], [card-moved], [board-change] and
    one [drag-end] with [success = true], in this order. *)
Theorem cross_column_gesture (b : Board) (c col : loc) (swim : OptId)
    (hovers : list BoardEvent) :
  canDrag b (deref (cardStore b) c) = true ->
  id_truthy (Card.id (deref (cardStore b) c)) = true ->
  id_truthy (Card.columnId (deref (cardStore b) c)) = true ->
  getCardById (cardStore b) (cards b) (Card.id (deref (cardStore b) c)) = Some c ->
  canAcceptCards (deref (columnStore b) col) = true ->
  Column.id (deref (columnStore b) col) <> Card.columnId (deref (cardStore b) c) ->
  Forall is_hover hovers ->
  let cv := deref (cardStore b) c in
  let target := Column.id (deref (columnStore b) col) in
  let e := mkCardMove c (Card.columnId cv) target (Card.order cv)
                      (getCardCount (cardStore b) (cards b) target swim)
                      (or_null (Card.swimlaneId cv)) swim in
  run b (CardDragStart c :: hovers ++ [ColumnDrop col swim; CardDragEnd])
  = (mkBoard (fst (moveCard (cardStore b) (cards b) e))
             (snd (moveCard (cardStore b) (cards b) e))
             (columnStore b) (columns b) (swimlanes b) (options b) idleDragState,
     [EmitDragStart (mkDragStart DragCard (Card.id cv) (Id (Card.columnId cv)));
      EmitUpdateCards (snd (moveCard (cardStore b) (cards b) e));
      EmitCardMoved e;
      EmitBoardChange (columns b) (snd (moveCard (cardStore b) (cards b) e))
                      (if swimlanesEnabled b then Some (swimlanes b) else None);
      EmitDragEnd (mkDragEnd DragCard (Card.id cv) true)]).
Proof.
  intros Hdrag Hid Hcol Hfind Hacc Hdiff Hh cv target e.
  assert (Hen : isDragEnabled b = true).
  { unfold canDrag, boardEnableDragDrop in Hdrag. apply andb_prop in Hdrag as [Hen _].
    unfold isDragEnabled. destruct (enableDragDrop (options b)) as [[|]|]; auto. }
  assert (Hdr : not_false (Card.draggable cv) = true).
  { unfold canDrag in Hdrag. apply andb_prop in Hdrag as [_ Hdr]. exact Hdr. }
  change (CardDragStart c :: hovers ++ [ColumnDrop col swim; CardDragEnd])
    with ([CardDragStart c] ++ hovers ++ [ColumnDrop col swim; CardDragEnd]).
  change (deref (cardStore b) c) with cv in Hdrag, Hid, Hcol, Hfind, Hdiff.
  change (Column.id (deref (columnStore b) col)) with target in Hdiff.
  rewrite run_app, run_single. cbn [step]. fold cv. rewrite Hdrag.
  unfold startCardDrag. rewrite Hen, Hdr.
  cbn [negb orb apply_drag fst snd run_callbacks run_callback app].
  set (b0 := with_dragState b _).
  assert (Hacc0 : canAcceptCards (deref (columnStore b0) col) = true) by exact Hacc.
  change [ColumnDrop col swim; CardDragEnd] with ([ColumnDrop col swim] ++ [CardDragEnd]).
  rewrite app_assoc, run_app, (drop_through_hovers b0 hovers col swim Hh Hacc0).
  assert (Hidle : dragState (fst (step b0 (ColumnDrop col swim))) = idleDragState).
  { cbn [step]. rewrite Hacc0. apply handleColumnDrop_idle. }
  assert (Hdrop : step b0 (ColumnDrop col swim)
                  = (mkBoard (fst (moveCard (cardStore b) (cards b) e))
                             (snd (moveCard (cardStore b) (cards b) e))
                             (columnStore b) (columns b) (swimlanes b) (options b)
                             idleDragState,
                     [EmitUpdateCards (snd (moveCard (cardStore b) (cards b) e));
                      EmitCardMoved e;
                      EmitBoardChange (columns b) (snd (moveCard (cardStore b) (cards b) e))
                        (if swimlanesEnabled b then Some (swimlanes b) else None);
                      EmitDragEnd (mkDragEnd DragCard (Card.id cv) true)])).
  { cbn [step]. rewrite Hacc0. unfold handleColumnDrop, handleDrop.
    change (isDragEnabled b0) with (isDragEnabled b). rewrite Hen.
    subst b0. cbn [with_dragState dragState dragType draggedId sourceColumnId sourceSwimlaneId
                   cardStore cards columnStore negb orb].
    rewrite bool_decide_eq_true_2 by reflexivity. cbn [negb].
    rewrite Hid. cbn [negb]. fold cv. rewrite Hfind, Hcol. cbn [negb].
    fold target.
    assert (Hne : id_eq target (Card.columnId cv) = false)
      by (unfold id_eq; apply bool_decide_eq_false_2; exact Hdiff).
    rewrite Hne. cbn [andb negb orb].
    unfold apply_drag. cbn [fst snd app run_callbacks run_callback].
    rewrite onCardMoved_eq. reflexivity. }
  rewrite Hdrop in Hidle |- *. cbn [fst] in Hidle.
  rewrite run_single, (dragEnd_when_idle _ Hidle). reflexivity.
Qed.

Lemma cross_column_gesture_witness :
  let b := Scenario.board in
  run b [CardDragStart 0%nat; ColumnDragOver 0%nat Undefined; ColumnDragOver 1%nat Undefined;
         ColumnDrop 1%nat Undefined; CardDragEnd]
  = (mkBoard (fst (moveCard (cardStore b) (cards b)
                     (mkCardMove 0%nat Scenario.A Scenario.B 0 1 Null Undefined)))
             (snd (moveCard (cardStore b) (cards b)
                     (mkCardMove 0%nat Scenario.A Scenario.B 0 1 Null Undefined)))
             (columnStore b) (columns b) (swimlanes b) (options b) idleDragState,
     [EmitDragStart (mkDragStart DragCard (IdStr "c1") (Id Scenario.A));
      EmitUpdateCards (snd (moveCard (cardStore b) (cards b)
                              (mkCardMove 0%nat Scenario.A Scenario.B 0 1 Null Undefined)));
      EmitCardMoved (mkCardMove 0%nat Scenario.A Scenario.B 0 1 Null Undefined);
      EmitBoardChange (columns b)
                      (snd (moveCard (cardStore b) (cards b)
                              (mkCardMove 0%nat Scenario.A Scenario.B 0 1 Null Undefined)))
                      None;
      EmitDragEnd (mkDragEnd DragCard (IdStr "c1") true)]).
Proof.
  apply (cross_column_gesture Scenario.board 0%nat 1%nat Undefined
           [ColumnDragOver 0%nat Undefined; ColumnDragOver 1%nat Undefined]);
    try reflexivity.
  - intros H. discriminate H.
  - repeat constructor.
Defined.

(** While a card is being dragged, from its [dragstart] through any
    number of hovers, [isCardDragging] holds for the id of that card and
    for no other id, and [isColumnDragging] holds for no id. *)
Theorem card_dragging_during_gesture (b : Board) (c : loc) (hovers : list BoardEvent)
    (i : KanbanId) :
  canDrag b (deref (cardStore b) c) = true ->
  Forall is_hover hovers ->
  let ds := dragState (fst (run b (CardDragStart c :: hovers))) in
  isCardDragging ds i = id_eq (Card.id (deref (cardStore b) c)) i
  /\ isColumnDragging ds i = false.
Proof.
  intros Hdrag Hh. cbv zeta.
  assert (Hen : isDragEnabled b = true).
  { unfold canDrag, boardEnableDragDrop in Hdrag. apply andb_prop in Hdrag as [Hen _].
    unfold isDragEnabled. destruct (enableDragDrop (options b)) as [[|]|]; auto. }
  assert (Hdr : not_false (Card.draggable (deref (cardStore b) c)) = true).
  { unfold canDrag in Hdrag. apply andb_prop in Hdrag as [_ Hdr]. exact Hdr. }
  change (CardDragStart c :: hovers) with ([CardDragStart c] ++ hovers).
  rewrite run_app, run_single. cbn [step]. rewrite Hdrag.
  unfold startCardDrag. rewrite Hen, Hdr.
  cbn [negb orb apply_drag fst snd run_callbacks run_callback app].
  match goal with |- context [run ?b1 hovers] =>
    destruct (run_hovers_subject b1 hovers Hh) as (ds & Hrun & Hid & Hty & _);
    rewrite Hrun end.
  cbn in Hid, Hty. cbn [fst with_dragState dragState].
  unfold isCardDragging, isColumnDragging. rewrite Hid, Hty.
  rewrite bool_decide_eq_true_2 by reflexivity.
  rewrite (bool_decide_eq_false_2 (Some DragCard = Some DragColumn)) by discriminate.
  cbn [andb]. split; [|reflexivity].
  unfold strict_eq, id_eq. apply bool_decide_ext. split; congruence.
Qed.

Lemma card_dragging_during_gesture_witness :
  let ds := dragState (fst (run Scenario.board
                             [CardDragStart 1%nat; ColumnDragOver 1%nat Undefined])) in
  isCardDragging ds (IdStr "c1") = id_eq (IdStr "c2") (IdStr "c1")
  /\ isColumnDragging ds (IdStr "c1") = false.
Proof.
  apply (card_dragging_during_gesture Scenario.board 1%nat [ColumnDragOver 1%nat Undefined]
           (IdStr "c1")).
  - reflexivity.
  - repeat constructor.
Defined.
